(** * Crossword constraint solver (PSET7/crossword/generate.py)

    A shallow embedding of [CrosswordCreator]: node consistency, [revise],
    AC-3, the consistency check and the backtracking search, followed by the
    properties of the solver.

    Python sets are finite sets ([gset]); whenever the program iterates over
    a set, the embedding iterates over [elements] of it, an arbitrary but
    fixed order.  Python dicts are finite maps ([gmap]).  The statements
    below speak about membership and lookups only, never about that order.
    Words are strings of 8-bit characters, [len(word)] is [String.length]
    and [word[i]], for the non-negative indices of the overlap map, is
    [String.get].

    A call returns or raises: a missing key is a [KeyError], an index
    outside a word an [IndexError], [min] of an empty list a [ValueError].
    Nothing in the program catches an exception, so a raise ends the run and
    the state at that point is not modelled. *)

From stdpp Require Import gmap strings list fin_maps fin_sets sorting.
From Stdlib Require Import String Ascii Lia.


(** ** Data model *)

(** Modelled from the spec: the two directions of a slot ([Variable.ACROSS],
    [Variable.DOWN]); the class [Variable] is imported by generate.py and is
    not part of the sources. *)
Inductive Direction := ACROSS | DOWN.

(** Modelled from the spec: one slot of the grid, the class [Variable] of
    the puzzle structure, with its start row [i], start column [j],
    direction and length. *)
Record CwVariable := mkVariable {
  var_i : nat;
  var_j : nat;
  var_direction : Direction;
  var_length : nat
}.

#[global] Instance Direction_eq_dec : EqDecision Direction.
Proof. solve_decision. Defined.

#[global] Instance CwVariable_eq_dec : EqDecision CwVariable.
Proof. solve_decision. Defined.

#[global] Instance CwVariable_countable : Countable CwVariable.
Proof.
  refine (inj_countable'
    (λ v, (var_i v, var_j v,
           match var_direction v with ACROSS => true | DOWN => false end,
           var_length v))
    (λ t, match t with
          | (a, b, d, l) => mkVariable a b (if d then ACROSS else DOWN) l
          end) _).
  intros [a b [] l]; reflexivity.
Defined.

(** [self.domains]: a dict from variables to sets of words. *)
Abbreviation domains := (gmap CwVariable (gset string)).

(** An assignment: a dict from variables to words. *)
Abbreviation assignment := (gmap CwVariable string).

(** A directed arc [(x, y)]. *)
Abbreviation arc := (CwVariable * CwVariable)%type.

(** Modelled from the spec: the puzzle structure handed to the solver, the
    class [Crossword], which generate.py imports and which is not part of
    the sources.  Per the data model, [variables] is the set of slots,
    [words] the word list, and [overlaps] records, for a pair of
    intersecting variables [(x, y)], the pair (index in x, index in y) of
    the shared cell; a pair that does not intersect has no entry. *)
Record Crossword := mkCrossword {
  variables : gset CwVariable;
  words : gset string;
  overlaps : gmap arc (nat * nat)
}.

(** Modelled from the spec: [Crossword.neighbors], the variables sharing an
    overlap with [var] (the variable itself excluded). *)
Definition neighbors (cw : Crossword) (var : CwVariable) : gset CwVariable :=
  filter (λ v, v ≠ var ∧ is_Some (overlaps cw !! (v, var))) (variables cw).

(** ** Outcomes of a run

    A Python call either returns a value or raises.  [OutOfFuel] belongs to
    the embedding only: loops and recursion are driven by a fuel counter, and
    the termination theorems show that it is never the outcome of [ac3] or
    [solve]. *)

Inductive exn := IndexError | KeyError | ValueError.

Inductive run (A : Type) : Type :=
| Ret (a : A)
| Exn (e : exn)
| OutOfFuel.

Arguments Ret {A} a.
Arguments Exn {A} e.
Arguments OutOfFuel {A}.

#[global] Instance run_ret : MRet run := λ A a, Ret a.

#[global] Instance run_bind : MBind run := λ A B k m,
  match m with
  | Ret a => k a
  | Exn e => Exn e
  | OutOfFuel => OutOfFuel
  end.

(** [self.domains[v]] *)
Definition dom_get (doms : domains) (v : CwVariable) : run (gset string) :=
  match doms !! v with
  | Some D => Ret D
  | None => Exn KeyError
  end.

(** [word[i]] for a non-negative index *)
Definition str_index (word : string) (i : nat) : run ascii :=
  match String.get i word with
  | Some c => Ret c
  | None => Exn IndexError
  end.

(** ** Construction and node consistency *)

(** [__init__]: every variable starts with a copy of the whole word list. *)
Definition CrosswordCreator (cw : Crossword) : domains :=
  gset_to_gmap (words cw) (variables cw).

Definition node_filter (var : CwVariable) (D : gset string) : gset string :=
  filter (λ word, String.length word = var_length var) D.

Fixpoint node_loop (vars : list CwVariable) (doms : domains) : run domains :=
  match vars with
  | [] => Ret doms
  | var :: rest =>
      D ← dom_get doms var;
      node_loop rest (<[var := node_filter var D]> doms)
  end.

Definition enforce_node_consistency (cw : Crossword) (doms : domains)
  : run domains :=
  node_loop (elements (variables cw)) doms.

(** ** revise *)

(** [any(word_x[i] == word_y[j] for word_y in ys)]: the generator is
    consumed lazily, so the scan stops at the first agreeing word. *)
Fixpoint any_match (word_x : string) (i j : nat) (ys : list string)
  : run bool :=
  match ys with
  | [] => Ret false
  | word_y :: ys' =>
      cx ← str_index word_x i;
      cy ← str_index word_y j;
      if decide (cx = cy) then Ret true else any_match word_x i j ys'
  end.

(** [self.domains[x].remove(word_x)] *)
Definition dom_remove (doms : domains) (x : CwVariable) (word_x : string)
  : run domains :=
  D ← dom_get doms x;
  if decide (word_x ∈ D) then Ret (<[x := D ∖ {[word_x]}]> doms)
  else Exn KeyError.

(** The loop over the snapshot [list(self.domains[x])]; the domain of [y] is
    read from the current store at every iteration. *)
Fixpoint revise_loop (x y : CwVariable) (i j : nat) (snapshot : list string)
    (doms : domains) (revised : bool) : run (bool * domains) :=
  match snapshot with
  | [] => Ret (revised, doms)
  | word_x :: rest =>
      Dy ← dom_get doms y;
      found ← any_match word_x i j (elements Dy);
      if found : bool then revise_loop x y i j rest doms revised
      else
        doms' ← dom_remove doms x word_x;
        revise_loop x y i j rest doms' true
  end.

Definition revise (cw : Crossword) (x y : CwVariable) (doms : domains)
  : run (bool * domains) :=
  match overlaps cw !! (x, y) with
  | None => Ret (false, doms)
  | Some (i, j) =>
      Dx ← dom_get doms x;
      revise_loop x y i j (elements Dx) doms false
  end.

(** ** AC-3 *)

(** [[(x, y) for x in variables for y in neighbors(x)]] *)
Definition all_arcs (cw : Crossword) : list arc :=
  x ← elements (variables cw);
  (λ y, (x, y)) <$> elements (neighbors cw x).

(** The arcs [(neighbor, x)] appended after a revision of [(x, y)]. *)
Definition requeue (cw : Crossword) (x y : CwVariable) : list arc :=
  (λ neighbor, (neighbor, x)) <$> elements (neighbors cw x ∖ {[y]}).

(** The [while queue:] loop; [queue.pop(0)] takes the head and
    [queue.append] adds at the back. *)
Fixpoint ac3_loop (cw : Crossword) (fuel : nat) (doms : domains)
    (queue : list arc) : run (bool * domains) :=
  match queue with
  | [] => Ret (true, doms)
  | (x, y) :: queue' =>
      match fuel with
      | 0 => OutOfFuel
      | S fuel' =>
          '(revised, doms') ← revise cw x y doms;
          if revised : bool then
            Dx ← dom_get doms' x;
            if decide (Dx = ∅) then Ret (false, doms')
            else ac3_loop cw fuel' doms' (queue' ++ requeue cw x y)
          else ac3_loop cw fuel' doms' queue'
      end
  end.

(** Total number of candidate words in the store. *)
Definition store_size (doms : domains) : nat :=
  sum_list ((λ p, size p.2) <$> map_to_list doms).

(** Iterations that always suffice: a revision removes at least one word and
    appends at most [size (variables cw)] arcs. *)
Definition ac3_fuel (cw : Crossword) (doms : domains) (queue : list arc)
  : nat :=
  List.length queue + store_size doms * S (size (variables cw)).

Definition ac3 (cw : Crossword) (doms : domains) (arcs : option (list arc))
  : run (bool * domains) :=
  let queue := default (all_arcs cw) arcs in
  ac3_loop cw (ac3_fuel cw doms queue) doms queue.

(** ** Consistency of an assignment *)

(** [all(var in assignment for var in self.crossword.variables)] *)
Definition assignment_complete (cw : Crossword) (a : assignment) : bool :=
  bool_decide (set_Forall (λ var, is_Some (a !! var)) (variables cw)).

(** The inner loop of [consistent] over [neighbors(var)]; [word] is
    [assignment[var]].  Looking up a pair without entry in [overlaps], or
    unpacking it, raises. *)
Fixpoint neighbors_agree (cw : Crossword) (a : assignment) (var : CwVariable)
    (word : string) (ns : list CwVariable) : run bool :=
  match ns with
  | [] => Ret true
  | neighbor :: ns' =>
      match a !! neighbor with
      | None => neighbors_agree cw a var word ns'
      | Some word_n =>
          match overlaps cw !! (var, neighbor) with
          | None => Exn KeyError
          | Some (i, j) =>
              cx ← str_index word i;
              cy ← str_index word_n j;
              if decide (cx ≠ cy) then Ret false
              else neighbors_agree cw a var word ns'
          end
      end
  end.

(** The outer loop of [consistent] with its accumulator [assigned_words]. *)
Fixpoint consistent_loop (cw : Crossword) (a : assignment)
    (vars : list CwVariable) (assigned_words : gset string) : run bool :=
  match vars with
  | [] => Ret true
  | var :: rest =>
      match a !! var with
      | None => consistent_loop cw a rest assigned_words
      | Some word =>
          if decide (String.length word ≠ var_length var) then Ret false
          else
            ok ← neighbors_agree cw a var word (elements (neighbors cw var));
            if negb ok then Ret false
            else if decide (word ∈ assigned_words) then Ret false
            else consistent_loop cw a rest ({[word]} ∪ assigned_words)
      end
  end.

Definition consistent (cw : Crossword) (a : assignment) : run bool :=
  consistent_loop cw a (elements (variables cw)) ∅.

(** ** Heuristics *)

(** The key of [order_domain_values]: the number of neighbors whose domain
    contains [word]. *)
Fixpoint lcv_key (doms : domains) (word : string) (ns : list CwVariable)
  : run nat :=
  match ns with
  | [] => Ret 0
  | neighbor :: ns' =>
      D ← dom_get doms neighbor;
      n ← lcv_key doms word ns';
      Ret ((if decide (word ∈ D) then 1 else 0) + n)
  end.

Fixpoint keyed (doms : domains) (ns : list CwVariable) (ws : list string)
  : run (list (nat * string)) :=
  match ws with
  | [] => Ret []
  | word :: ws' =>
      k ← lcv_key doms word ns;
      l ← keyed doms ns ws';
      Ret ((k, word) :: l)
  end.

(** Stable insertion: [p] goes before the first entry whose key is not
    smaller, so equal keys keep their input order, as [sorted] does. *)
Fixpoint insert_by_key (p : nat * string) (l : list (nat * string))
  : list (nat * string) :=
  match l with
  | [] => [p]
  | q :: l' => if decide (q.1 < p.1) then q :: insert_by_key p l' else p :: l
  end.

Definition sorted_by_key (l : list (nat * string)) : list string :=
  snd <$> foldr insert_by_key [] l.

Definition order_domain_values (cw : Crossword) (doms : domains)
    (var : CwVariable) (a : assignment) : run (list string) :=
  D ← dom_get doms var;
  l ← keyed doms (elements (neighbors cw var)) (elements D);
  Ret (sorted_by_key l).

(** [[(var, len(self.domains[var])) for var in vars]] *)
Fixpoint domain_sizes (doms : domains) (vars : list CwVariable)
  : run (list (CwVariable * nat)) :=
  match vars with
  | [] => Ret []
  | var :: rest =>
      D ← dom_get doms var;
      l ← domain_sizes doms rest;
      Ret ((var, size D) :: l)
  end.

(** [min(..., key=lambda x: x[1])]: the first entry with the least key. *)
Fixpoint min_by_size (best : CwVariable * nat) (l : list (CwVariable * nat))
  : CwVariable * nat :=
  match l with
  | [] => best
  | p :: l' => min_by_size (if decide (p.2 < best.2) then p else best) l'
  end.

Definition unassigned (cw : Crossword) (a : assignment) : list CwVariable :=
  filter (λ var, a !! var = None) (elements (variables cw)).

Definition select_unassigned_variable (cw : Crossword) (doms : domains)
    (a : assignment) : run CwVariable :=
  unassigned_vars ← domain_sizes doms (unassigned cw a);
  match unassigned_vars with
  | [] => Exn ValueError
  | p :: l => Ret (min_by_size p l).1
  end.

(** ** Backtracking search *)

(** What the search does, in order: entering [backtrack], executing
    [assignment[var] = value], executing [assignment.pop(var)]. *)
Inductive event :=
| Call_backtrack
| Assign (var : CwVariable) (value : string)
| Unassign (var : CwVariable).

#[global] Instance event_eq_dec : EqDecision event.
Proof. solve_decision. Defined.

(** [assignment.pop(var)] *)
Definition dict_pop (a : assignment) (var : CwVariable) : run assignment :=
  match a !! var with
  | Some _ => Ret (delete var a)
  | None => Exn KeyError
  end.

(** Truth value of what [backtrack] returned: [None] and the empty dict are
    both false. *)
Definition truthy (returned : bool) (a : assignment) : bool :=
  returned && bool_decide (a ≠ ∅).

(** [backtrack] works on one dict, which it mutates and, on success, returns.
    The embedding returns whether the dict was returned ([true]) or [None]
    was ([false]), the content of the dict when the call ends, and the
    events of the call. *)
Abbreviation search_result := (bool * assignment * list event)%type.

(** The [for value in ...] loop of [backtrack]; [rec] is the recursive call
    and [log] the events of the enclosing call so far. *)
Fixpoint try_values (cw : Crossword) (rec : assignment → run search_result)
    (var : CwVariable) (values : list string) (a : assignment)
    (log : list event) : run search_result :=
  match values with
  | [] => Ret (false, a, log)
  | value :: rest =>
      let a1 := <[var := value]> a in
      let log1 := log ++ [Assign var value] in
      ok ← consistent cw a1;
      if ok : bool then
        '(returned, a2, log2) ← rec a1;
        if truthy returned a2 then Ret (true, a2, log1 ++ log2)
        else
          a3 ← dict_pop a2 var;
          try_values cw rec var rest a3 (log1 ++ log2 ++ [Unassign var])
      else
        a3 ← dict_pop a1 var;
        try_values cw rec var rest a3 (log1 ++ [Unassign var])
  end.

Fixpoint backtrack (cw : Crossword) (doms : domains) (fuel : nat)
    (a : assignment) : run search_result :=
  match fuel with
  | 0 => OutOfFuel
  | S fuel' =>
      if assignment_complete cw a then Ret (true, a, [Call_backtrack])
      else
        var ← select_unassigned_variable cw doms a;
        values ← order_domain_values cw doms var a;
        try_values cw (backtrack cw doms fuel') var values a [Call_backtrack]
  end.

(** The recursion is at most one level deeper than the number of variables. *)
Definition backtrack_fuel (cw : Crossword) : nat := S (size (variables cw)).

(** [solve]: the result of [self.ac3()] is not looked at.  Besides the
    returned value ([None] or the assignment) the embedding gives the store
    the search ran on and the events of the search. *)
Definition solve (cw : Crossword) (doms : domains)
  : run (option assignment * domains * list event) :=
  doms1 ← enforce_node_consistency cw doms;
  '(_, doms2) ← ac3 cw doms1 None;
  '(returned, a, log) ← backtrack cw doms2 (backtrack_fuel cw) ∅;
  Ret (if returned : bool then Some a else None, doms2, log).

(** ** Well-formed inputs *)

(** The invariant of the overlap map, which the puzzle structure computes
    once from the cell two intersecting slots share (data model: an entry
    per unordered pair, holding the index in each slot): an entry joins two
    different variables of the puzzle, its indices lie within the two slots,
    and the entry of the reversed pair is the mirrored one. *)
Definition wf_overlap (cw : Crossword) (k : arc) (p : nat * nat) : Prop :=
  k.1 ∈ variables cw ∧ k.2 ∈ variables cw ∧ k.1 ≠ k.2 ∧
  p.1 < var_length k.1 ∧ p.2 < var_length k.2 ∧
  overlaps cw !! (k.2, k.1) = Some (p.2, p.1).

#[global] Instance wf_overlap_dec cw k p : Decision (wf_overlap cw k p).
Proof. unfold wf_overlap. apply _. Defined.

Definition wf_crossword (cw : Crossword) : Prop :=
  map_Forall (wf_overlap cw) (overlaps cw).

(** A variable is node-consistent in a store when it has a domain and every
    word of the domain has the length of the variable. *)
Definition node_ok (doms : domains) (var : CwVariable) : Prop :=
  match doms !! var with
  | Some D => set_Forall (λ word, String.length word = var_length var) D
  | None => False
  end.

#[global] Instance node_ok_dec doms var : Decision (node_ok doms var).
Proof. unfold node_ok. destruct (doms !! var); apply _. Defined.

Definition node_consistent (cw : Crossword) (doms : domains) : Prop :=
  set_Forall (node_ok doms) (variables cw).

(** [doms'] has the keys of [doms] and, at every key, a subset of its
    domain. *)
Definition shrinks (doms' doms : domains) : Prop :=
  ∀ v, match doms' !! v, doms !! v with
       | Some D', Some D => D' ⊆ D
       | None, None => True
       | _, _ => False
       end.

Definition shrinks_at (doms : domains) (v : CwVariable) (D' : gset string)
  : Prop :=
  match doms !! v with
  | Some D => D' ⊆ D
  | None => False
  end.

#[global] Instance shrinks_at_dec doms v D' : Decision (shrinks_at doms v D').
Proof. unfold shrinks_at. destruct (doms !! v); apply _. Defined.

#[global] Instance shrinks_dec doms' doms : Decision (shrinks doms' doms).
Proof.
  refine (cast_if (decide (dom doms ⊆ dom doms' ∧
                           map_Forall (shrinks_at doms) doms'))).
  - destruct a as [Hdom Hall]. intros v.
    destruct (doms' !! v) as [D'|] eqn:Hv'.
    + exact (Hall v D' Hv').
    + destruct (doms !! v) as [D|] eqn:Hv; [|exact I].
      apply not_elem_of_dom in Hv'. apply Hv', Hdom, elem_of_dom. eauto.
  - intros Hs. apply n. split.
    + intros v [D Hv]%elem_of_dom. specialize (Hs v). rewrite Hv in Hs.
      apply elem_of_dom. destruct (doms' !! v); [eauto | done].
    + intros v D' Hv'. specialize (Hs v). rewrite Hv' in Hs.
      unfold shrinks_at. by destruct (doms !! v).
Defined.

(** [word_y] supports [word_x]: the characters at the overlap agree. *)
Definition supports (i j : nat) (word_x word_y : string) : Prop :=
  ∃ c, String.get i word_x = Some c ∧ String.get j word_y = Some c.

(** Every word of the domain of [a.1] has a supporting word in the domain of
    [a.2]. *)
Definition arc_consistent (cw : Crossword) (doms : domains) (a : arc)
  : Prop :=
  ∀ i j Dx wx, overlaps cw !! a = Some (i, j) →
    doms !! a.1 = Some Dx → wx ∈ Dx →
    ∃ Dy wy, doms !! a.2 = Some Dy ∧ wy ∈ Dy ∧ supports i j wx wy.

(** The invariant of the AC-3 loop: an arc of the puzzle is queued or
    consistent. *)
Definition ac3_inv (cw : Crossword) (doms : domains) (queue : list arc)
  : Prop :=
  ∀ a, a ∈ all_arcs cw → a ∈ queue ∨ arc_consistent cw doms a.

(** Every variable of the puzzle has a domain in the store. *)
Definition has_domains (cw : Crossword) (doms : domains) : Prop :=
  set_Forall (λ v, is_Some (doms !! v)) (variables cw).

(** Every assigned word has the length of its variable. *)
Definition lengths_ok (cw : Crossword) (a : assignment) : Prop :=
  ∀ var w, var ∈ variables cw → a !! var = Some w →
    String.length w = var_length var.

(** Every assigned word is a word of the domain of its variable. *)
Definition drawn_ok (doms : domains) (var : CwVariable) (w : string) : Prop :=
  match doms !! var with
  | Some D => w ∈ D
  | None => False
  end.

#[global] Instance drawn_ok_dec doms var w : Decision (drawn_ok doms var w).
Proof. unfold drawn_ok. destruct (doms !! var); apply _. Defined.

Definition drawn_from (a : assignment) (doms : domains) : Prop :=
  map_Forall (drawn_ok doms) a.

(** ** Example puzzles *)

Section examples.
Local Open Scope string_scope.

(** Row 0 of the grid, three cells from column 0. *)
Definition across0 : CwVariable := mkVariable 0 0 ACROSS 3.

(** Column 1 of the grid, three cells from row 0; it crosses [across0] in
    the cell (0, 1), the second cell of [across0] and its own first. *)
Definition down1 : CwVariable := mkVariable 0 1 DOWN 3.

(** Column 3 of the grid, two cells from row 2; it crosses nothing. *)
Definition down3 : CwVariable := mkVariable 2 3 DOWN 2.

Definition crossing : gmap arc (nat * nat) :=
  {[ (across0, down1) := (1, 0); (down1, across0) := (0, 1) ]}.

Definition cat_ace : gset string := {["CAT"; "ACE"]}.

Definition cat_dog : gset string := {["CAT"; "DOG"]}.

Definition cat_dog_ace : gset string := {["CAT"; "DOG"; "ACE"]}.

(** A solvable puzzle; its store after node consistency and after arc
    consistency, an assignment of one variable, the solution found and the
    events of the search. *)
Definition puzzle_ok : Crossword :=
  mkCrossword {[across0; down1]} {["CAT"; "DOG"; "ACE"; "TO"]} crossing.

Definition store_ok : domains :=
  {[across0 := cat_dog_ace; down1 := cat_dog_ace]}.

Definition store_ok_ac3 : domains :=
  {[across0 := cat_ace; down1 := cat_ace]}.

Definition partial_ok : assignment := {[down1 := "ACE"]}.

Definition solution_ok : assignment := {[across0 := "CAT"; down1 := "ACE"]}.

Definition log_ok : list event :=
  [Call_backtrack; Assign across0 "CAT"; Call_backtrack;
   Assign down1 "CAT"; Unassign down1; Assign down1 "ACE"; Call_backtrack].

(** A puzzle on which arc consistency empties a domain, since no two of
    the words agree at the crossing; its store after node consistency,
    after one arc-consistency run (which stops at the first arc) and after
    a second one; an assignment of one variable and the events of the
    failing search from it. *)
Definition puzzle_stuck : Crossword :=
  mkCrossword {[across0; down1]} {["CAT"; "DOG"]} crossing.

Definition store_stuck : domains := {[across0 := cat_dog; down1 := cat_dog]}.

Definition store_stuck_ac3 : domains := {[across0 := ∅; down1 := cat_dog]}.

Definition store_stuck_twice : domains := {[across0 := ∅; down1 := ∅]}.

Definition partial_stuck : assignment := {[across0 := "DOG"]}.

Definition log_stuck : list event :=
  [Call_backtrack; Assign down1 "CAT"; Unassign down1;
   Assign down1 "DOG"; Unassign down1].

(** A puzzle with a third slot that crosses nothing. *)
Definition puzzle_apart : Crossword :=
  mkCrossword {[across0; down1; down3]} {["CAT"; "ACE"; "TO"]} crossing.

(** A puzzle without slots. *)
Definition puzzle_empty : Crossword := mkCrossword ∅ {["CAT"; "DOG"]} ∅.

(** A puzzle whose word list has no word of three letters. *)
Definition puzzle_short : Crossword :=
  mkCrossword {[across0; down1]} {["TO"; "AT"]} crossing.

End examples.

(** ** What the solver is for *)

(** The three conditions on an assignment, over the variables of the puzzle:
    every assigned word has the length of its variable, two assigned
    variables with an overlap entry agree at the recorded positions, and no
    word is assigned to two different variables. *)
Definition consistent_spec (cw : Crossword) (a : assignment) : Prop :=
  lengths_ok cw a ∧
  (∀ x y wx wy i j, a !! x = Some wx → a !! y = Some wy →
     overlaps cw !! (x, y) = Some (i, j) → supports i j wx wy) ∧
  (∀ x y w, x ∈ variables cw → y ∈ variables cw →
     a !! x = Some w → a !! y = Some w → x = y).

(** A solution of the puzzle: every variable has a word of the word list,
    and the three conditions hold. *)
Definition puzzle_solution (cw : Crossword) (s : assignment) : Prop :=
  (∀ v, v ∈ variables cw → ∃ w, s !! v = Some w ∧ w ∈ words cw) ∧
  consistent_spec cw s.

(** A family of words, one set per variable, in which every word has a
    support at every overlap. *)
Definition self_supporting (cw : Crossword)
    (P : CwVariable → string → Prop) : Prop :=
  ∀ x y i j wx, overlaps cw !! (x, y) = Some (i, j) → P x wx →
    ∃ wy, P y wy ∧ supports i j wx wy.

(** The words of the family are candidates in the store. *)
Definition inside (P : CwVariable → string → Prop) (doms : domains) : Prop :=
  ∀ x w, P x w → ∃ D, doms !! x = Some D ∧ w ∈ D.

(** The key by which [order_domain_values] sorts: the number of neighbors
    of [var] whose domain contains [word]. *)
Definition lcv_count (cw : Crossword) (doms : domains) (var : CwVariable)
    (word : string) : nat :=
  List.length
    (filter (λ nb, drawn_ok doms nb word) (elements (neighbors cw var))).

Section more_examples.
Local Open Scope string_scope.

(** A store of [puzzle_ok] in which DOG is a candidate of [across0] only. *)
Definition store_mixed : domains :=
  {[across0 := cat_dog_ace; down1 := cat_ace]}.

Definition order_mixed : list string := ["DOG"; "CAT"; "ACE"].

Definition log_partial_ok : list event :=
  [Call_backtrack; Assign across0 "CAT"; Call_backtrack].

End more_examples.

(** ** Rendering *)

(** The grid [letter_grid] builds: rows of cells, a cell holding [None] or a
    character. *)
Abbreviation grid := (list (list (option ascii))).

(** The cell of the [k]-th character of a word placed at [var]: row
    [var.i + k] for a [DOWN] variable, column [var.j + k] for an [ACROSS]
    one. *)
Definition var_cell (var : CwVariable) (k : nat) : nat * nat :=
  (var_i var + (if decide (var_direction var = DOWN) then k else 0),
   var_j var + (if decide (var_direction var = ACROSS) then k else 0)).

(** Reading [grid[i][j]]: [None] outside the grid. *)
Definition grid_get (g : grid) (p : nat * nat) : option (option ascii) :=
  row ← g !! p.1; row !! p.2.

(** [grid[i][j] = c] *)
Definition grid_set (g : grid) (p : nat * nat) (c : ascii) : run grid :=
  match g !! p.1 with
  | None => Exn IndexError
  | Some row =>
      if decide (p.2 < List.length row)
      then Ret (<[p.1 := <[p.2 := Some c]> row]> g)
      else Exn IndexError
  end.

(** The loop [for k in range(len(word))] of [letter_grid]. *)
Fixpoint write_word (var : CwVariable) (word : string) (ks : list nat)
    (g : grid) : run grid :=
  match ks with
  | [] => Ret g
  | k :: ks' =>
      c ← str_index word k;
      g' ← grid_set g (var_cell var k) c;
      write_word var word ks' g'
  end.

(** The loop [for var, word in assignment.items()] of [letter_grid]. *)
Fixpoint letter_grid_loop (items : list (CwVariable * string)) (g : grid)
  : run grid :=
  match items with
  | [] => Ret g
  | (var, word) :: rest =>
      g' ← write_word var word (seq 0 (String.length word)) g;
      letter_grid_loop rest g'
  end.

(** [[[None for _ in range(width)] for _ in range(height)]] *)
Definition empty_grid (height width : nat) : grid :=
  replicate height (replicate width None).

(** [letter_grid]; [height] and [width] are [self.crossword.height] and
    [self.crossword.width], the dimensions of the puzzle structure. *)
Definition letter_grid (height width : nat) (a : assignment) : run grid :=
  letter_grid_loop (map_to_list a) (empty_grid height width).

(** The word placed at [var] puts the character [c] in the cell [p]. *)
Definition covers (var : CwVariable) (word : string) (p : nat * nat)
    (c : ascii) : Prop :=
  ∃ k, String.get k word = Some c ∧ var_cell var k = p.

Definition within (height width : nat) (p : nat * nat) : Prop :=
  p.1 < height ∧ p.2 < width.

(** Every character of every assigned word falls inside the grid. *)
Definition fits (height width : nat) (a : assignment) : Prop :=
  ∀ var word k, a !! var = Some word → k < String.length word →
    within height width (var_cell var k).

Definition grid_dims (height width : nat) (g : grid) : Prop :=
  List.length g = height ∧ Forall (λ row, List.length row = width) g.

(** The overlap map misses no crossing: two different variables of the
    puzzle that share a cell have the entry with the two indices of that
    cell (data model: an entry for every pair that intersects on the
    grid). *)
Definition overlaps_cover (cw : Crossword) : Prop :=
  ∀ x y k1 k2, x ∈ variables cw → y ∈ variables cw → x ≠ y →
    k1 < var_length x → k2 < var_length y →
    var_cell x k1 = var_cell y k2 →
    overlaps cw !! (x, y) = Some (k1, k2).

#[global] Instance overlaps_cover_dec cw : Decision (overlaps_cover cw).
Proof.
  refine (cast_if (decide (set_Forall (λ x, set_Forall (λ y, x ≠ y →
    Forall (λ k1, Forall (λ k2,
      var_cell x k1 = var_cell y k2 → overlaps cw !! (x, y) = Some (k1, k2))
      (seq 0 (var_length y))) (seq 0 (var_length x)))
    (variables cw)) (variables cw)))).
  - intros x y k1 k2 Hx Hy Hne Hk1 Hk2.
    pose proof (s x Hx y Hy Hne) as H. rewrite Forall_forall in H.
    assert (Hin1 : k1 ∈ seq 0 (var_length x)) by (apply elem_of_seq; lia).
    specialize (H k1 Hin1). rewrite Forall_forall in H. apply H.
    apply elem_of_seq. lia.
  - intros H. apply n. intros x Hx y Hy Hne.
    apply Forall_forall. intros k1 Hk1%elem_of_seq.
    apply Forall_forall. intros k2 Hk2%elem_of_seq.
    apply H; [done | done | done | lia | lia].
Defined.

Section grid_examples.
Local Open Scope char_scope.

(** The grid of [solution_ok] on three rows and three columns: CAT in row
    0, ACE down column 1. *)
Definition grid_ok : grid :=
  [[Some "C"; Some "A"; Some "T"];
   [None; Some "C"; None];
   [None; Some "E"; None]].

End grid_examples.

(** ** Reasoning about outcomes *)

Section outcomes.
Context {A B : Type}.
Implicit Types (m : run A) (k : A → run B).

Lemma bind_Ret_inv m k b :
  m ≫= k = Ret b → ∃ a, m = Ret a ∧ k a = Ret b.
Proof. destruct m; simpl; [eauto | discriminate | discriminate]. Qed.

Lemma bind_fuel_inv m k :
  m ≫= k = OutOfFuel → m = OutOfFuel ∨ ∃ a, m = Ret a ∧ k a = OutOfFuel.
Proof. destruct m; simpl; [eauto | discriminate | eauto]. Qed.

End outcomes.

(** Splits a hypothesis [m ≫= k = Ret b] into the two runs it is made of. *)
Ltac run_inv H :=
  let a := fresh "r" in
  let Ha := fresh "Hr" in
  apply bind_Ret_inv in H as (a & Ha & H).

Lemma dom_get_Ret doms v D : dom_get doms v = Ret D ↔ doms !! v = Some D.
Proof. unfold dom_get. destruct (doms !! v); split; congruence. Qed.

Lemma dom_get_not_fuel doms v : dom_get doms v ≠ OutOfFuel.
Proof. unfold dom_get. by destruct (doms !! v). Qed.

Lemma str_index_Ret word i c :
  str_index word i = Ret c ↔ String.get i word = Some c.
Proof. unfold str_index. destruct (String.get i word); split; congruence. Qed.

Lemma str_index_not_fuel word i : str_index word i ≠ OutOfFuel.
Proof. unfold str_index. by destruct (String.get i word). Qed.

Lemma get_in_range word i :
  i < String.length word → is_Some (String.get i word).
Proof.
  revert i. induction word as [|c word IH]; intros [|i] Hi; simpl in *;
    try lia; eauto.
  apply IH. lia.
Qed.

Lemma supports_flip i j wx wy : supports i j wx wy ↔ supports j i wy wx.
Proof. unfold supports. split; intros (c & ? & ?); eauto. Qed.

(** ** The store: sizes and shrinking *)

Lemma shrinks_refl doms : shrinks doms doms.
Proof. intros v. by destruct (doms !! v). Qed.

Lemma shrinks_trans d1 d2 d3 : shrinks d1 d2 → shrinks d2 d3 → shrinks d1 d3.
Proof.
  intros H12 H23 v. specialize (H12 v). specialize (H23 v).
  destruct (d1 !! v), (d2 !! v), (d3 !! v); try done. set_solver.
Qed.

Lemma shrinks_insert doms x D D' :
  doms !! x = Some D → D' ⊆ D → shrinks (<[x := D']> doms) doms.
Proof.
  intros Hx Hsub v. destruct (decide (x = v)) as [<-|Hne].
  - by rewrite lookup_insert_eq, Hx.
  - rewrite lookup_insert_ne by done. by destruct (doms !! v).
Qed.

Lemma shrinks_dom d' d : shrinks d' d → dom d' = dom d.
Proof.
  intros H. apply set_eq. intros v. rewrite !elem_of_dom. specialize (H v).
  destruct (d' !! v), (d !! v); try done; split; intros [? ?]; eauto; done.
Qed.

Lemma shrinks_lookup_r d' d v D :
  shrinks d' d → d !! v = Some D → ∃ D', d' !! v = Some D' ∧ D' ⊆ D.
Proof.
  intros H Hv. specialize (H v). rewrite Hv in H.
  destruct (d' !! v); [eauto | done].
Qed.

Lemma store_size_insert doms x D D' :
  doms !! x = Some D →
  store_size (<[x := D']> doms) + size D = store_size doms + size D'.
Proof.
  intros Hx. unfold store_size.
  rewrite <- (insert_delete_id doms x D) at 2 by done.
  rewrite <- (insert_delete_eq doms x D').
  rewrite !map_to_list_insert by apply lookup_delete_eq.
  simpl. lia.
Qed.

(** ** Properties of revise *)

Lemma any_match_not_fuel wx i j ys : any_match wx i j ys ≠ OutOfFuel.
Proof.
  induction ys as [|wy ys IH]; simpl; [done|].
  intros H. apply bind_fuel_inv in H as [H|(cx & _ & H)].
  { by apply str_index_not_fuel in H. }
  apply bind_fuel_inv in H as [H|(cy & _ & H)].
  { by apply str_index_not_fuel in H. }
  by destruct (decide (cx = cy)).
Qed.

Lemma any_match_true wx i j ys :
  any_match wx i j ys = Ret true → ∃ wy, wy ∈ ys ∧ supports i j wx wy.
Proof.
  induction ys as [|wy ys IH]; simpl; [done|]. intros H.
  run_inv H. run_inv H. rename r into cx, r0 into cy.
  apply str_index_Ret in Hr, Hr0.
  destruct (decide (cx = cy)) as [->|_].
  - exists wy. split; [left|]. by exists cy.
  - destruct (IH H) as (wy' & ? & ?). exists wy'. split; [by right|done].
Qed.

Lemma any_match_false wx i j ys :
  any_match wx i j ys = Ret false → ∀ wy, wy ∈ ys → ¬ supports i j wx wy.
Proof.
  induction ys as [|wy ys IH]; simpl; intros H wy' Hin.
  { by apply elem_of_nil in Hin. }
  run_inv H. run_inv H. rename r into cx, r0 into cy.
  apply str_index_Ret in Hr, Hr0.
  destruct (decide (cx = cy)) as [->|Hne]; [done|].
  apply elem_of_cons in Hin as [->|Hin]; [|by apply IH].
  intros (c & Hc1 & Hc2). congruence.
Qed.

Lemma any_match_safe wx i j ys :
  i < String.length wx → (∀ wy, wy ∈ ys → j < String.length wy) →
  ∃ b, any_match wx i j ys = Ret b.
Proof.
  intros Hi. induction ys as [|wy ys IH]; simpl; intros Hj; [eauto|].
  destruct (get_in_range wx i Hi) as [cx Hcx].
  destruct (get_in_range wy j) as [cy Hcy]; [apply Hj; left|].
  apply str_index_Ret in Hcx, Hcy. rewrite Hcx, Hcy. simpl.
  destruct (decide (cx = cy)); [eauto|].
  apply IH. intros wy' ?. apply Hj. by right.
Qed.

Lemma dom_remove_Ret doms x w doms' :
  dom_remove doms x w = Ret doms' →
  ∃ D, doms !! x = Some D ∧ w ∈ D ∧ doms' = <[x := D ∖ {[w]}]> doms.
Proof.
  unfold dom_remove. intros H. run_inv H. apply dom_get_Ret in Hr.
  destruct (decide (w ∈ r)); [|done]. exists r. by inversion H.
Qed.

Lemma dom_remove_not_fuel doms x w : dom_remove doms x w ≠ OutOfFuel.
Proof.
  unfold dom_remove. intros H. apply bind_fuel_inv in H as [H|(D & _ & H)].
  - by apply dom_get_not_fuel in H.
  - by destruct (decide (w ∈ D)).
Qed.

Lemma dom_remove_size doms x w doms' :
  dom_remove doms x w = Ret doms' →
  shrinks doms' doms ∧ S (store_size doms') = store_size doms.
Proof.
  intros (D & Hx & Hw & ->)%dom_remove_Ret. split.
  - eapply shrinks_insert; [done|]. by intros ? [? _]%elem_of_difference.
  - pose proof (store_size_insert doms x D (D ∖ {[w]}) Hx) as Hsz.
    assert (size D = S (size (D ∖ {[w]}))); [|lia].
    rewrite (size_difference D {[w]}) by set_solver.
    rewrite size_singleton.
    assert (size D ≠ 0); [|lia].
    intros ->%size_empty_inv%leibniz_equiv. by apply elem_of_empty in Hw.
Qed.

Lemma revise_loop_not_fuel x y i j snapshot doms revised :
  revise_loop x y i j snapshot doms revised ≠ OutOfFuel.
Proof.
  revert doms revised.
  induction snapshot as [|w rest IH]; intros doms revised; simpl; [done|].
  intros H. apply bind_fuel_inv in H as [H|(Dy & _ & H)].
  { by apply dom_get_not_fuel in H. }
  apply bind_fuel_inv in H as [H|(found & _ & H)].
  { by apply any_match_not_fuel in H. }
  destruct found; [by apply IH in H|].
  apply bind_fuel_inv in H as [H|(doms1 & _ & H)].
  - by apply dom_remove_not_fuel in H.
  - by apply IH in H.
Qed.

(** Whatever the arguments, the loop only removes words, and it reports a
    revision exactly when it removed one. *)
Lemma revise_loop_shrinks x y i j snapshot doms revised b doms' :
  revise_loop x y i j snapshot doms revised = Ret (b, doms') →
  shrinks doms' doms ∧
  (b = false → revised = false ∧ doms' = doms) ∧
  (b = true → revised = true ∨ store_size doms' < store_size doms) ∧
  store_size doms' ≤ store_size doms.
Proof.
  revert doms revised.
  induction snapshot as [|w rest IH]; intros doms revised; simpl; intros H.
  { inversion H; subst. split_and!; auto using shrinks_refl. }
  run_inv H. run_inv H. destruct r0.
  { by apply IH. }
  run_inv H. apply IH in H as (Hs & Hf & Ht & Hle).
  apply dom_remove_size in Hr1 as [Hs1 Hsz].
  split_and!.
  - by eapply shrinks_trans.
  - intros ->. by destruct Hf.
  - intros _. right. lia.
  - lia.
Qed.

(** For two different variables: the loop keeps the words outside the
    snapshot, keeps a word of the snapshot exactly when it has a support in
    the domain of [y], and touches no other domain. *)
Lemma revise_loop_spec x y i j snapshot doms revised b doms' Dx :
  x ≠ y → doms !! x = Some Dx → NoDup snapshot →
  (∀ w, w ∈ snapshot → w ∈ Dx) →
  revise_loop x y i j snapshot doms revised = Ret (b, doms') →
  ∃ Dx', doms' = <[x := Dx']> doms ∧ Dx' ⊆ Dx ∧
    (∀ w, w ∈ Dx → w ∉ snapshot → w ∈ Dx') ∧
    (∀ w, w ∈ snapshot → w ∈ Dx' →
       ∃ Dy wy, doms !! y = Some Dy ∧ wy ∈ Dy ∧ supports i j w wy) ∧
    (∀ w, w ∈ snapshot → w ∉ Dx' →
       ∀ Dy wy, doms !! y = Some Dy → wy ∈ Dy → ¬ supports i j w wy) ∧
    (b = true ↔ revised = true ∨ ∃ w, w ∈ snapshot ∧ w ∉ Dx').
Proof.
  intros Hxy. revert doms revised Dx.
  induction snapshot as [|w rest IH]; intros doms revised Dx Hx Hnd Hin;
    simpl; intros H.
  { inversion H; subst. exists Dx. split_and!.
    - by rewrite insert_id.
    - done.
    - done.
    - by intros w ?%elem_of_nil.
    - by intros w ?%elem_of_nil.
    - split; [auto|]. intros [?|(w & ?%elem_of_nil & _)]; done. }
  apply NoDup_cons in Hnd as [Hw Hnd].
  run_inv H. rename r into Dy. apply dom_get_Ret in Hr.
  run_inv H. destruct r.
  - (* a support was found: the word stays *)
    apply any_match_true in Hr0 as (wy & Hwy%elem_of_elements & Hsup).
    destruct (IH doms revised Dx Hx Hnd) as (Dx' & -> & Hsub & Hout & Hk & Hr' & Hb);
      [|done|].
    { intros w' ?. apply Hin. by right. }
    assert (w ∈ Dx') by (apply Hout; [apply Hin; left | done]).
    exists Dx'. split_and!; [done | done | | | |].
    + intros w' ? Hn. apply Hout; [done|]. intros ?. apply Hn. by right.
    + intros w' [->|?]%elem_of_cons ?; [by exists Dy, wy | by apply Hk].
    + intros w' [->|?]%elem_of_cons ?; [done | by apply Hr'].
    + rewrite Hb. split; intros [?|(w' & Hw' & Hn)]; auto; right.
      * exists w'. split; [by right | done].
      * apply elem_of_cons in Hw' as [->|?]; [done|]. by exists w'.
  - (* no support: the word is removed *)
    pose proof (any_match_false _ _ _ _ Hr0) as Hno.
    run_inv H. apply dom_remove_Ret in Hr1 as (D & HD & HwD & ->).
    rewrite Hx in HD. injection HD as <-.
    destruct (IH (<[x := Dx ∖ {[w]}]> doms) true (Dx ∖ {[w]}))
      as (Dx' & -> & Hsub & Hout & Hk & Hr' & Hb); [| done | | done |].
    { by rewrite lookup_insert_eq. }
    { intros w' Hw'. apply elem_of_difference. split; [apply Hin; by right|].
      intros ->%elem_of_singleton. done. }
    assert (w ∉ Dx').
    { intros [_ Hn]%Hsub%elem_of_difference. apply Hn.
      by apply elem_of_singleton. }
    assert (Hy : ∀ D', <[x := D']> doms !! y = doms !! y).
    { intros D'. by rewrite lookup_insert_ne. }
    exists Dx'. split_and!.
    + by rewrite insert_insert_eq.
    + by intros w' [? _]%Hsub%elem_of_difference.
    + intros w' ? Hn. apply Hout.
      * apply elem_of_difference. split; [done|].
        intros ->%elem_of_singleton. apply Hn. by left.
      * intros ?. apply Hn. by right.
    + intros w' [->|?]%elem_of_cons ?; [done|].
      rewrite <- (Hy (Dx ∖ {[w]})). by apply Hk.
    + intros w' [->|?]%elem_of_cons ? Dy' wy HDy' Hwy.
      * rewrite Hr in HDy'. injection HDy' as <-.
        apply Hno. by apply elem_of_elements.
      * eapply Hr'; [done | done | by rewrite Hy | done].
    + split; [|by destruct Hb as [_ Hb]; intros _; apply Hb; left].
      intros _. right. exists w. split; [by left | done].
Qed.

Lemma revise_not_fuel cw x y doms : revise cw x y doms ≠ OutOfFuel.
Proof.
  unfold revise. destruct (overlaps cw !! (x, y)) as [[i j]|]; [|done].
  intros H. apply bind_fuel_inv in H as [H|(Dx & _ & H)].
  - by apply dom_get_not_fuel in H.
  - by apply revise_loop_not_fuel in H.
Qed.

Lemma revise_shrinks cw x y doms b doms' :
  revise cw x y doms = Ret (b, doms') →
  shrinks doms' doms ∧ (b = false → doms' = doms) ∧
  (b = true → store_size doms' < store_size doms).
Proof.
  unfold revise. destruct (overlaps cw !! (x, y)) as [[i j]|].
  - intros H. run_inv H.
    apply revise_loop_shrinks in H as (? & Hf & Ht & _). split_and!.
    + done.
    + intros ->. by destruct Hf.
    + intros ->. by destruct Ht.
  - intros H. inversion H; subst. split_and!; auto using shrinks_refl. done.
Qed.

Lemma revise_spec cw x y i j doms b doms' :
  x ≠ y → overlaps cw !! (x, y) = Some (i, j) →
  revise cw x y doms = Ret (b, doms') →
  ∃ Dx Dx', doms !! x = Some Dx ∧ doms' = <[x := Dx']> doms ∧ Dx' ⊆ Dx ∧
    (∀ w, w ∈ Dx' →
       ∃ Dy wy, doms !! y = Some Dy ∧ wy ∈ Dy ∧ supports i j w wy) ∧
    (∀ w, w ∈ Dx → w ∉ Dx' →
       ∀ Dy wy, doms !! y = Some Dy → wy ∈ Dy → ¬ supports i j w wy) ∧
    (b = true ↔ ∃ w, w ∈ Dx ∧ w ∉ Dx').
Proof.
  intros Hxy Hov. unfold revise. rewrite Hov. intros H.
  run_inv H. rename r into Dx. apply dom_get_Ret in Hr.
  eapply revise_loop_spec in H as (Dx' & -> & Hsub & _ & Hk & Hr' & Hb);
    [| done | done | apply NoDup_elements | by intros w ?%elem_of_elements].
  exists Dx, Dx'. split_and!; [done | done | done | | |].
  - intros w Hw. apply Hk; [|done]. apply elem_of_elements. auto.
  - intros w Hw Hn. apply Hr'; [|done]. by apply elem_of_elements.
  - rewrite Hb. split.
    + intros [?|(w & ?%elem_of_elements & ?)]; [done | eauto].
    + intros (w & ? & ?). right. exists w. by rewrite elem_of_elements.
Qed.

Lemma revise_loop_safe x y i j snapshot doms revised Dx Dy :
  x ≠ y → doms !! x = Some Dx → doms !! y = Some Dy → NoDup snapshot →
  (∀ w, w ∈ snapshot → w ∈ Dx ∧ i < String.length w) →
  (∀ w, w ∈ Dy → j < String.length w) →
  ∃ b doms', revise_loop x y i j snapshot doms revised = Ret (b, doms').
Proof.
  intros Hxy. revert doms revised Dx.
  induction snapshot as [|w rest IH]; intros doms revised Dx Hx Hy Hnd Hin HDy;
    simpl; [eauto|].
  apply NoDup_cons in Hnd as [Hw Hnd].
  destruct (Hin w) as [HwD Hi]; [by left|].
  apply dom_get_Ret in Hy as Hy'. rewrite Hy'. simpl.
  destruct (any_match_safe w i j (elements Dy) Hi) as [found ->].
  { intros wy ?%elem_of_elements. auto. }
  simpl. destruct found.
  - eapply IH; eauto. intros w' ?. apply Hin. by right.
  - unfold dom_remove. apply dom_get_Ret in Hx as Hx'. rewrite Hx'. simpl.
    destruct (decide (w ∈ Dx)); [|done]. simpl.
    apply (IH _ _ (Dx ∖ {[w]})); [by rewrite lookup_insert_eq | | done | | done].
    + by rewrite lookup_insert_ne.
    + intros w' Hw'. destruct (Hin w') as [? ?]; [by right|].
      split; [|done]. apply elem_of_difference. split; [done|].
      by intros ->%elem_of_singleton.
Qed.

(** ** Properties of the AC-3 loop *)

Lemma neighbors_spec cw x v :
  v ∈ neighbors cw x ↔
  v ∈ variables cw ∧ v ≠ x ∧ is_Some (overlaps cw !! (v, x)).
Proof. unfold neighbors. rewrite elem_of_filter. tauto. Qed.

Lemma elem_of_all_arcs cw x y :
  (x, y) ∈ all_arcs cw ↔ x ∈ variables cw ∧ y ∈ neighbors cw x.
Proof.
  unfold all_arcs. rewrite list_elem_of_bind. split.
  - intros (x' & Hin & Hx'). apply elem_of_elements in Hx'.
    apply list_elem_of_fmap in Hin as (y' & [= -> ->] & Hy').
    by apply elem_of_elements in Hy'.
  - intros [Hx Hy]. exists x. rewrite elem_of_elements. split; [|done].
    apply list_elem_of_fmap. exists y. by rewrite elem_of_elements.
Qed.

Lemma elem_of_requeue cw x y z x' :
  (z, x') ∈ requeue cw x y ↔ x' = x ∧ z ∈ neighbors cw x ∧ z ≠ y.
Proof.
  unfold requeue. rewrite list_elem_of_fmap. split.
  - intros (z' & [= -> ->] & Hz).
    apply elem_of_elements, elem_of_difference in Hz as [? Hn].
    split_and!; [done | done |]. intros ->. apply Hn.
    by apply elem_of_singleton.
  - intros (-> & ? & ?). exists z. split; [done|].
    apply elem_of_elements, elem_of_difference. split; [done|].
    by intros ?%elem_of_singleton.
Qed.

Lemma requeue_length cw x y :
  List.length (requeue cw x y) ≤ size (variables cw).
Proof.
  unfold requeue. rewrite length_fmap.
  change (size (neighbors cw x ∖ {[y]}) ≤ size (variables cw)).
  apply subseteq_size. intros z Hz.
  apply elem_of_difference in Hz as [Hz _].
  by apply neighbors_spec in Hz as [? _].
Qed.

(** Termination: with [ac3_fuel] iterations the loop has returned or
    raised. *)
Lemma ac3_loop_not_fuel cw fuel doms queue :
  ac3_fuel cw doms queue ≤ fuel → ac3_loop cw fuel doms queue ≠ OutOfFuel.
Proof.
  revert doms queue. induction fuel as [|fuel IH]; intros doms queue Hf.
  { destruct queue as [|[x y] q]; [done|]. unfold ac3_fuel in Hf.
    simpl in Hf. lia. }
  destruct queue as [|[x y] q]; [done|]. simpl. intros H.
  apply bind_fuel_inv in H as [H|([revised doms'] & Hrev & H)].
  { by apply revise_not_fuel in H. }
  apply revise_shrinks in Hrev as (_ & Hfalse & Htrue).
  unfold ac3_fuel in Hf. simpl in Hf.
  destruct revised.
  - apply bind_fuel_inv in H as [H|(Dx & _ & H)].
    { by apply dom_get_not_fuel in H. }
    destruct (decide (Dx = ∅)); [done|].
    apply IH in H; [done|]. unfold ac3_fuel. rewrite length_app.
    pose proof (requeue_length cw x y). specialize (Htrue eq_refl). nia.
  - rewrite (Hfalse eq_refl) in H. apply IH in H; [done|].
    unfold ac3_fuel. lia.
Qed.

(** More fuel does not change an outcome that was reached. *)
Lemma ac3_loop_fuel_mono cw fuel fuel' doms queue :
  fuel ≤ fuel' → ac3_loop cw fuel doms queue ≠ OutOfFuel →
  ac3_loop cw fuel' doms queue = ac3_loop cw fuel doms queue.
Proof.
  revert fuel' doms queue.
  induction fuel as [|fuel IH]; intros fuel' doms queue Hle Hne.
  { destruct queue as [|[x y] q]; [by destruct fuel'|done]. }
  destruct fuel' as [|fuel']; [lia|].
  destruct queue as [|[x y] q]; [done|]. simpl in *.
  destruct (revise cw x y doms) as [[revised doms']| |]; simpl in *;
    [|done|done].
  destruct revised.
  - destruct (dom_get doms' x) as [Dx| |]; simpl in *; [|done|done].
    destruct (decide (Dx = ∅)); [done|]. apply IH; [lia|done].
  - apply IH; [lia|done].
Qed.

Lemma ac3_loop_enough cw fuel doms queue :
  ac3_fuel cw doms queue ≤ fuel →
  ac3_loop cw fuel doms queue = ac3 cw doms (Some queue).
Proof.
  intros Hle. unfold ac3. simpl.
  apply ac3_loop_fuel_mono; [done|]. by apply ac3_loop_not_fuel.
Qed.

Lemma ac3_loop_step cw fuel doms x y rest :
  ac3_loop cw (S fuel) doms ((x, y) :: rest) =
    '(revised, doms') ← revise cw x y doms;
    if revised : bool then
      Dx ← dom_get doms' x;
      if decide (Dx = ∅) then Ret (false, doms')
      else ac3_loop cw fuel doms' (rest ++ requeue cw x y)
    else ac3_loop cw fuel doms' rest.
Proof. reflexivity. Qed.

(** The loop body, as an equation on [ac3]. *)
Lemma ac3_unfold cw doms x y rest :
  ac3 cw doms (Some ((x, y) :: rest)) =
    '(revised, doms') ← revise cw x y doms;
    if revised : bool then
      Dx ← dom_get doms' x;
      if decide (Dx = ∅) then Ret (false, doms')
      else ac3 cw doms' (Some (rest ++ requeue cw x y))
    else ac3 cw doms' (Some rest).
Proof.
  rewrite <- (ac3_loop_enough cw (S (ac3_fuel cw doms ((x, y) :: rest))))
    by lia.
  rewrite ac3_loop_step.
  destruct (revise cw x y doms) as [[revised doms']| |] eqn:Hrev;
    [|done|done].
  apply revise_shrinks in Hrev as (_ & Hfalse & Htrue).
  cbn -[ac3_loop ac3 ac3_fuel]. destruct revised.
  - destruct (dom_get doms' x) as [Dx| |]; [|done|done].
    cbn -[ac3_loop ac3 ac3_fuel].
    destruct (decide (Dx = ∅)); [done|].
    apply ac3_loop_enough. unfold ac3_fuel. rewrite length_app. simpl.
    pose proof (requeue_length cw x y). specialize (Htrue eq_refl). nia.
  - apply ac3_loop_enough. rewrite (Hfalse eq_refl). unfold ac3_fuel.
    simpl. lia.
Qed.

Lemma ac3_loop_shrinks cw fuel doms queue b doms' :
  ac3_loop cw fuel doms queue = Ret (b, doms') → shrinks doms' doms.
Proof.
  revert doms queue. induction fuel as [|fuel IH]; intros doms queue H.
  { destruct queue as [|[x y] q]; [|done]. inversion H. apply shrinks_refl. }
  destruct queue as [|[x y] q]; simpl in H.
  { inversion H. apply shrinks_refl. }
  run_inv H. destruct r as [revised doms1].
  apply revise_shrinks in Hr as (Hs & _ & _).
  destruct revised.
  - run_inv H. destruct (decide (r = ∅)).
    + by inversion H; subst.
    + eapply shrinks_trans; [by eapply IH | done].
  - eapply shrinks_trans; [by eapply IH | done].
Qed.

(** A [False] result comes with an empty domain, at a variable of the
    puzzle or at the source of a queued arc. *)
Lemma ac3_loop_false cw fuel doms queue doms' :
  ac3_loop cw fuel doms queue = Ret (false, doms') →
  ∃ x, (x ∈ variables cw ∨ ∃ y, (x, y) ∈ queue) ∧ doms' !! x = Some ∅.
Proof.
  revert doms queue. induction fuel as [|fuel IH]; intros doms queue H.
  { by destruct queue as [|[x y] q]. }
  destruct queue as [|[x y] q]; simpl in H; [done|].
  run_inv H. destruct r as [revised doms1].
  destruct revised.
  - run_inv H. apply dom_get_Ret in Hr0. destruct (decide (r = ∅)) as [->|_].
    + inversion H; subst. exists x. split; [|done]. right. exists y. by left.
    + apply IH in H as (x' & [?|(y' & Hin)] & ?); exists x'; split; auto.
      apply elem_of_app in Hin as [?|Hin].
      * right. exists y'. by right.
      * apply elem_of_requeue in Hin as (_ & Hn & _).
        apply neighbors_spec in Hn as [? _]. by left.
  - apply IH in H as (x' & [?|(y' & Hin)] & ?); exists x'; split; auto.
    right. exists y'. by right.
Qed.

(** ** Well-formed puzzles and node-consistent stores *)

Lemma wf_lookup cw x y i j :
  wf_crossword cw → overlaps cw !! (x, y) = Some (i, j) →
  x ∈ variables cw ∧ y ∈ variables cw ∧ x ≠ y ∧
  i < var_length x ∧ j < var_length y ∧
  overlaps cw !! (y, x) = Some (j, i).
Proof. intros Hwf Hov. exact (Hwf (x, y) (i, j) Hov). Qed.

Lemma wf_neighbors cw x y :
  wf_crossword cw → y ∈ neighbors cw x →
  x ∈ neighbors cw y ∧ ∃ i j, overlaps cw !! (x, y) = Some (i, j).
Proof.
  intros Hwf (Hy & Hne & [[j i] Hov])%neighbors_spec.
  destruct (wf_lookup cw y x j i Hwf Hov) as (_ & Hx & _ & _ & _ & Hov').
  split; [|eauto]. apply neighbors_spec. split_and!; [done | done | eauto].
Qed.

Lemma node_ok_lookup doms var :
  node_ok doms var →
  ∃ D, doms !! var = Some D ∧
       ∀ w, w ∈ D → String.length w = var_length var.
Proof.
  unfold node_ok. destruct (doms !! var) as [D|]; [|done]. intros H.
  exists D. split; [done|]. intros w Hw. by apply H.
Qed.

Lemma node_consistent_shrinks cw doms' doms :
  shrinks doms' doms → node_consistent cw doms → node_consistent cw doms'.
Proof.
  intros Hs Hnc var Hvar.
  destruct (node_ok_lookup doms var (Hnc var Hvar)) as (D & HD & Hlen).
  destruct (shrinks_lookup_r _ _ _ _ Hs HD) as (D' & HD' & Hsub).
  unfold node_ok. rewrite HD'. intros w Hw. apply Hlen. set_solver.
Qed.

Lemma node_loop_spec vars doms doms' :
  NoDup vars → node_loop vars doms = Ret doms' →
  ∀ v, (v ∈ vars →
          ∃ D, doms !! v = Some D ∧ doms' !! v = Some (node_filter v D)) ∧
       (v ∉ vars → doms' !! v = doms !! v).
Proof.
  revert doms. induction vars as [|var rest IH]; intros doms Hnd H v; simpl in H.
  { inversion H; subst. split; [by intros ?%elem_of_nil | done]. }
  apply NoDup_cons in Hnd as [Hvar Hnd].
  run_inv H. rename r into D. apply dom_get_Ret in Hr.
  destruct (IH _ Hnd H v) as [Hin Hout]. split.
  - intros [->|Hv]%elem_of_cons.
    + exists D. split; [done|]. rewrite Hout by done. apply lookup_insert_eq.
    + destruct (Hin Hv) as (D1 & HD1 & HD'). exists D1. split; [|done].
      rewrite lookup_insert_ne in HD1; [done|]. by intros ->.
  - intros Hv. apply not_elem_of_cons in Hv as [Hne Hv].
    rewrite Hout by done. by rewrite lookup_insert_ne.
Qed.

Lemma enforce_node_consistency_spec cw doms doms' :
  enforce_node_consistency cw doms = Ret doms' →
  shrinks doms' doms ∧ node_consistent cw doms'.
Proof.
  intros H. pose proof (node_loop_spec _ _ _ (NoDup_elements _) H) as Hspec.
  split.
  - intros v. destruct (Hspec v) as [Hin Hout].
    destruct (decide (v ∈ elements (variables cw))) as [Hv|Hv].
    + destruct (Hin Hv) as (D & -> & ->). unfold node_filter.
      intros w Hw. by apply elem_of_filter in Hw as [_ ?].
    + rewrite (Hout Hv). by destruct (doms !! v).
  - intros var Hvar. destruct (Hspec var) as [Hin _].
    destruct Hin as (D & _ & HD'); [by apply elem_of_elements|].
    unfold node_ok. rewrite HD'. intros w Hw.
    by apply elem_of_filter in Hw as [? _].
Qed.

(** On a node-consistent store of a well-formed puzzle, [revise] neither
    misses a domain nor indexes outside a word. *)
Lemma revise_safe cw x y doms :
  wf_crossword cw → node_consistent cw doms →
  ∃ b doms', revise cw x y doms = Ret (b, doms').
Proof.
  intros Hwf Hnc. unfold revise.
  destruct (overlaps cw !! (x, y)) as [[i j]|] eqn:Hov; [|eauto].
  destruct (wf_lookup _ _ _ _ _ Hwf Hov) as (Hx & Hy & Hne & Hi & Hj & _).
  destruct (node_ok_lookup doms x (Hnc x Hx)) as (Dx & HDx & Hlx).
  destruct (node_ok_lookup doms y (Hnc y Hy)) as (Dy & HDy & Hly).
  apply dom_get_Ret in HDx as HDx'. rewrite HDx'. simpl.
  eapply revise_loop_safe; [done | done | done | apply NoDup_elements | |].
  - intros w Hw%elem_of_elements. split; [done|]. rewrite Hlx; done.
  - intros w Hw. rewrite Hly; done.
Qed.

Lemma ac3_loop_safe cw fuel doms queue e :
  wf_crossword cw → node_consistent cw doms →
  ac3_loop cw fuel doms queue ≠ Exn e.
Proof.
  intros Hwf. revert doms queue.
  induction fuel as [|fuel IH]; intros doms queue Hnc.
  { by destruct queue as [|[x y] q]. }
  destruct queue as [|[x y] q]; [done|]. rewrite ac3_loop_step.
  destruct (revise_safe cw x y doms Hwf Hnc) as (revised & doms1 & Hrev).
  rewrite Hrev. cbn -[ac3_loop].
  pose proof (revise_shrinks _ _ _ _ _ _ Hrev) as (Hs & Hfalse & _).
  pose proof (node_consistent_shrinks _ _ _ Hs Hnc) as Hnc1.
  destruct revised; [|by apply IH].
  assert (is_Some (doms1 !! x)) as [Dx HDx].
  { unfold revise in Hrev.
    destruct (overlaps cw !! (x, y)) as [[i j]|] eqn:Hov; [|by inversion Hrev].
    destruct (wf_lookup _ _ _ _ _ Hwf Hov) as (Hx & _).
    destruct (node_ok_lookup doms1 x (Hnc1 x Hx)) as (D & -> & _). eauto. }
  apply dom_get_Ret in HDx. rewrite HDx. cbn -[ac3_loop].
  destruct (decide (Dx = ∅)); [done|]. by apply IH.
Qed.

(** ** The AC-3 invariant *)

Lemma revise_keeps_inv cw x y q doms revised doms1 :
  wf_crossword cw → ac3_inv cw doms ((x, y) :: q) →
  revise cw x y doms = Ret (revised, doms1) →
  ac3_inv cw doms1 (if revised then q ++ requeue cw x y else q).
Proof.
  intros Hwf Hinv Hrev.
  destruct (overlaps cw !! (x, y)) as [[i j]|] eqn:Hov.
  2:{ unfold revise in Hrev. rewrite Hov in Hrev. inversion Hrev; subst.
      intros a Ha. destruct (Hinv a Ha) as [[->|?]%elem_of_cons|?]; auto.
      right. intros i j Dx wx Hov'. congruence. }
  destruct (wf_lookup _ _ _ _ _ Hwf Hov) as (Hx & Hy & Hne & _ & _ & Hov').
  pose proof (revise_shrinks _ _ _ _ _ _ Hrev) as (_ & Hfalse & _).
  destruct (revise_spec _ _ _ _ _ _ _ _ Hne Hov Hrev)
    as (Dx & Dx' & HDx & -> & Hsub & Hkept & Hgone & _).
  assert (Hxy : arc_consistent cw (<[x := Dx']> doms) (x, y)).
  { intros i' j' D wx Hov2 HD Hwx. simpl in *.
    rewrite Hov in Hov2. injection Hov2 as <- <-.
    rewrite lookup_insert_eq in HD. injection HD as <-.
    destruct (Hkept wx Hwx) as (Dy & wy & ? & ? & ?).
    exists Dy, wy. by rewrite lookup_insert_ne. }
  intros [a1 a2] Ha. destruct (decide ((a1, a2) = (x, y))) as [[= -> ->]|Hnxy].
  { by right. }
  destruct (Hinv _ Ha) as [[?|Hq]%elem_of_cons|Hcons]; [done | |].
  { left. destruct revised; [apply elem_of_app|]; auto. }
  destruct revised; [|right; by rewrite (Hfalse eq_refl)].
  apply elem_of_all_arcs in Ha as [Ha1 Ha2].
  destruct (decide (a2 = x)) as [->|Ha2x].
  - (* an arc into x *)
    destruct (decide (a1 = y)) as [->|Ha1y].
    + right. intros j' i' Dy wy Hov2 HDy Hwy. simpl in *.
      rewrite Hov' in Hov2. injection Hov2 as <- <-.
      rewrite lookup_insert_ne in HDy by done.
      destruct (Hcons j i Dy wy Hov' HDy Hwy) as (D & wx & HD & Hwx & Hsup).
      simpl in HD. rewrite HDx in HD. injection HD as <-.
      exists Dx', wx. rewrite lookup_insert_eq. split_and!; [done | | done].
      destruct (decide (wx ∈ Dx')) as [|Hn]; [done|]. exfalso.
      apply (Hgone wx Hwx Hn Dy wy HDy Hwy). by apply supports_flip.
    + left. apply elem_of_app. right. apply elem_of_requeue.
      split_and!; [done | | done].
      by apply (wf_neighbors cw a1 x Hwf) in Ha2 as [? _].
  - (* an arc into another variable *)
    right. intros i' j' D wx Hov2 HD Hwx. simpl in *.
    rewrite lookup_insert_ne by done.
    destruct (decide (a1 = x)) as [->|Ha1x].
    + rewrite lookup_insert_eq in HD. injection HD as <-.
      apply (Hcons i' j' Dx wx Hov2 HDx). by apply Hsub.
    + rewrite lookup_insert_ne in HD by done.
      by apply (Hcons i' j' D wx Hov2 HD).
Qed.

Lemma ac3_loop_consistent cw fuel doms queue doms' :
  wf_crossword cw → ac3_inv cw doms queue →
  ac3_loop cw fuel doms queue = Ret (true, doms') →
  ∀ a, a ∈ all_arcs cw → arc_consistent cw doms' a.
Proof.
  intros Hwf. revert doms queue.
  induction fuel as [|fuel IH]; intros doms queue Hinv H.
  { destruct queue as [|[x y] q]; [|done]. inversion H; subst.
    intros a Ha. by destruct (Hinv a Ha) as [?%elem_of_nil|?]. }
  destruct queue as [|[x y] q].
  { inversion H; subst.
    intros a Ha. by destruct (Hinv a Ha) as [?%elem_of_nil|?]. }
  rewrite ac3_loop_step in H. run_inv H. destruct r as [revised doms1].
  pose proof (revise_keeps_inv _ _ _ _ _ _ _ Hwf Hinv Hr) as Hinv1.
  destruct revised.
  - run_inv H. destruct (decide (r = ∅)); [done|]. by eapply IH.
  - by eapply IH.
Qed.

(** On arcs that are already consistent the loop removes nothing. *)
Lemma ac3_loop_fixpoint cw fuel doms queue b doms' :
  wf_crossword cw → (∀ a, a ∈ queue → arc_consistent cw doms a) →
  ac3_loop cw fuel doms queue = Ret (b, doms') → b = true ∧ doms' = doms.
Proof.
  intros Hwf. revert queue.
  induction fuel as [|fuel IH]; intros queue Hcons H.
  { destruct queue as [|[x y] q]; [|done]. by inversion H. }
  destruct queue as [|[x y] q]; [by inversion H|].
  rewrite ac3_loop_step in H. run_inv H. destruct r as [revised doms1].
  assert (revised = false) as ->.
  { destruct revised; [|done]. exfalso.
    destruct (overlaps cw !! (x, y)) as [[i j]|] eqn:Hov.
    2:{ unfold revise in Hr. rewrite Hov in Hr. by inversion Hr. }
    destruct (wf_lookup _ _ _ _ _ Hwf Hov) as (_ & _ & Hne & _).
    destruct (revise_spec _ _ _ _ _ _ _ _ Hne Hov Hr)
      as (Dx & Dx' & HDx & _ & _ & _ & Hgone & Hb).
    destruct Hb as [Hb _]. destruct (Hb eq_refl) as (w & Hw & Hn).
    destruct (Hcons (x, y) (list_elem_of_here _ _) i j Dx w Hov HDx Hw)
      as (Dy & wy & HDy & Hwy & Hsup).
    by apply (Hgone w Hw Hn Dy wy HDy Hwy). }
  apply revise_shrinks in Hr as (_ & Hfalse & _).
  rewrite (Hfalse eq_refl) in H.
  apply (IH q); [|done]. intros a Ha. apply Hcons. by right.
Qed.

(** ** Properties of consistent *)

Lemma neighbors_agree_true cw a var word ns :
  neighbors_agree cw a var word ns = Ret true →
  ∀ nb wn, nb ∈ ns → a !! nb = Some wn →
    ∃ i j, overlaps cw !! (var, nb) = Some (i, j) ∧ supports i j word wn.
Proof.
  induction ns as [|nb ns IH]; simpl; intros H nb' wn Hin Hnb'.
  { by apply elem_of_nil in Hin. }
  destruct (a !! nb) as [wn0|] eqn:Hnb.
  2:{ apply elem_of_cons in Hin as [->|Hin]; [congruence | by eapply IH]. }
  destruct (overlaps cw !! (var, nb)) as [[i j]|] eqn:Hov; [|done].
  run_inv H. run_inv H. rename r into cx, r0 into cy.
  apply str_index_Ret in Hr, Hr0.
  destruct (decide (cx ≠ cy)) as [|Heq%dec_stable]; [done|]. subst cy.
  apply elem_of_cons in Hin as [->|Hin]; [|by eapply IH].
  rewrite Hnb in Hnb'. injection Hnb' as <-.
  exists i, j. split; [done|]. by exists cx.
Qed.

Lemma neighbors_agree_safe cw a var word ns :
  (∀ nb wn, nb ∈ ns → a !! nb = Some wn →
     ∃ i j, overlaps cw !! (var, nb) = Some (i, j) ∧
            i < String.length word ∧ j < String.length wn) →
  ∃ b, neighbors_agree cw a var word ns = Ret b.
Proof.
  induction ns as [|nb ns IH]; simpl; intros Hok; [eauto|].
  assert (Hrest : ∃ b, neighbors_agree cw a var word ns = Ret b).
  { apply IH. intros nb' wn ? ?. apply Hok; [by right | done]. }
  destruct (a !! nb) as [wn|] eqn:Hnb; [|done].
  destruct (Hok nb wn) as (i & j & -> & Hi & Hj); [by left | done |].
  destruct (get_in_range _ _ Hi) as [cx Hcx].
  destruct (get_in_range _ _ Hj) as [cy Hcy].
  apply str_index_Ret in Hcx, Hcy. rewrite Hcx, Hcy. simpl.
  destruct (decide (cx ≠ cy)); eauto.
Qed.

(** What a successful run of the loop has checked: for each assigned
    variable of the list, the length, agreement with the assigned neighbors,
    and that its word was not seen before. *)
Lemma consistent_loop_true cw a vars seen :
  consistent_loop cw a vars seen = Ret true →
  (∀ var w, var ∈ vars → a !! var = Some w →
     String.length w = var_length var ∧ (w ∉ seen) ∧
     (∀ nb wn, nb ∈ neighbors cw var → a !! nb = Some wn →
        ∃ i j, overlaps cw !! (var, nb) = Some (i, j) ∧ supports i j w wn)) ∧
  (NoDup vars → ∀ v1 v2 w, v1 ∈ vars → v2 ∈ vars →
     a !! v1 = Some w → a !! v2 = Some w → v1 = v2).
Proof.
  revert seen. induction vars as [|var rest IH]; intros seen; simpl; intros H.
  { split; [by intros ?? ?%elem_of_nil | by intros ???? ?%elem_of_nil]. }
  destruct (a !! var) as [word|] eqn:Hvar.
  2:{ destruct (IH _ H) as [Hall Huniq]. split.
      - intros v w [->|?]%elem_of_cons ?; [congruence | by apply Hall].
      - intros [_ Hnd]%NoDup_cons v1 v2 w
          [->|?]%elem_of_cons [->|?]%elem_of_cons ??; try congruence.
        by eapply Huniq. }
  destruct (decide (String.length word ≠ var_length var)) as [|Hlen%dec_stable];
    [done|].
  run_inv H. destruct r; simpl in H; [|done].
  destruct (decide (word ∈ seen)) as [|Hseen]; [done|].
  destruct (IH _ H) as [Hall Huniq].
  pose proof (neighbors_agree_true _ _ _ _ _ Hr) as Hagree. split.
  - intros v w [->|Hv]%elem_of_cons Hw.
    + rewrite Hvar in Hw. injection Hw as <-. split_and!; [done | done |].
      intros nb wn Hnb. apply Hagree. by apply elem_of_elements.
    + destruct (Hall v w Hv Hw) as (? & Hn & ?). split_and!; [done | | done].
      intros ?. apply Hn. apply elem_of_union. by right.
  - intros [Hfresh Hnd]%NoDup_cons v1 v2 w Hv1 Hv2 Hw1 Hw2.
    apply elem_of_cons in Hv1 as [->|Hv1], Hv2 as [->|Hv2]; [done | | |].
    + rewrite Hvar in Hw1. injection Hw1 as <-.
      destruct (Hall v2 word Hv2 Hw2) as (_ & Hn & _). exfalso. apply Hn.
      apply elem_of_union. left. by apply elem_of_singleton.
    + rewrite Hvar in Hw2. injection Hw2 as <-.
      destruct (Hall v1 word Hv1 Hw1) as (_ & Hn & _). exfalso. apply Hn.
      apply elem_of_union. left. by apply elem_of_singleton.
    + by eapply Huniq.
Qed.

Lemma consistent_loop_safe cw a vars seen :
  wf_crossword cw →
  (∀ var w, var ∈ variables cw → a !! var = Some w →
     String.length w = var_length var) →
  (∀ var, var ∈ vars → var ∈ variables cw) →
  ∃ b, consistent_loop cw a vars seen = Ret b.
Proof.
  intros Hwf Hlen. revert seen.
  induction vars as [|var rest IH]; intros seen Hvars; simpl; [eauto|].
  assert (Hrest : ∀ seen', ∃ b, consistent_loop cw a rest seen' = Ret b).
  { intros seen'. apply IH. intros v ?. apply Hvars. by right. }
  destruct (a !! var) as [word|] eqn:Hvar; [|done].
  destruct (decide (String.length word ≠ var_length var)) as [|Hl%dec_stable];
    [eauto|].
  destruct (neighbors_agree_safe cw a var word (elements (neighbors cw var)))
    as [ok ->].
  { intros nb wn Hnb%elem_of_elements Hwn.
    destruct (wf_neighbors cw var nb Hwf Hnb) as (_ & i & j & Hov).
    destruct (wf_lookup _ _ _ _ _ Hwf Hov) as (_ & Hnbv & _ & Hi & Hj & _).
    exists i, j. split; [done|]. rewrite Hl, (Hlen nb wn Hnbv Hwn). done. }
  simpl. destruct ok; simpl; [|eauto].
  destruct (decide (word ∈ seen)); eauto.
Qed.

Lemma consistent_empty cw : consistent cw ∅ = Ret true.
Proof.
  unfold consistent. generalize (elements (variables cw)) (∅ : gset string).
  intros vars. induction vars as [|var rest IH]; intros seen; simpl; [done|].
  rewrite lookup_empty. apply IH.
Qed.

(** The three conditions a consistent assignment satisfies. *)
Lemma consistent_true cw a :
  consistent cw a = Ret true →
  (∀ var w, var ∈ variables cw → a !! var = Some w →
     String.length w = var_length var) ∧
  (∀ var nb w wn, var ∈ variables cw → nb ∈ neighbors cw var →
     a !! var = Some w → a !! nb = Some wn →
     ∃ i j, overlaps cw !! (var, nb) = Some (i, j) ∧ supports i j w wn) ∧
  (∀ v1 v2 w, v1 ∈ variables cw → v2 ∈ variables cw →
     a !! v1 = Some w → a !! v2 = Some w → v1 = v2).
Proof.
  intros H. apply consistent_loop_true in H as [Hall Huniq]. split_and!.
  - intros var w Hv%elem_of_elements Hw. by destruct (Hall var w Hv Hw).
  - intros var nb w wn Hv%elem_of_elements Hnb Hw Hwn.
    destruct (Hall var w Hv Hw) as (_ & _ & Hag). by apply Hag.
  - intros v1 v2 w Hv1%elem_of_elements Hv2%elem_of_elements.
    apply Huniq; [apply NoDup_elements | done | done].
Qed.

(** ** Properties of the heuristics *)

Lemma min_by_size_spec best l :
  min_by_size best l ∈ best :: l ∧
  ∀ q, q ∈ best :: l → (min_by_size best l).2 ≤ q.2.
Proof.
  revert best. induction l as [|p l IH]; intros best; simpl.
  { split; [by left|]. by intros q [->|?%elem_of_nil]%elem_of_cons. }
  destruct (IH (if decide (p.2 < best.2) then p else best)) as [Hin Hle].
  split.
  - apply elem_of_cons in Hin as [->|Hin]; [|by do 2 right].
    destruct (decide (p.2 < best.2)); [right|]; by left.
  - intros q Hq.
    assert (Hb : (min_by_size (if decide (p.2 < best.2) then p else best) l).2
                 ≤ (if decide (p.2 < best.2) then p else best).2).
    { apply Hle. by left. }
    apply elem_of_cons in Hq as [Hq|[Hq|Hq]%elem_of_cons]; subst.
    + destruct (decide (p.2 < best.2)); simpl in *; lia.
    + destruct (decide (p.2 < best.2)); simpl in *; lia.
    + apply Hle. by right.
Qed.

Lemma domain_sizes_Ret doms vars l :
  domain_sizes doms vars = Ret l →
  ∀ v, v ∈ vars ↔ ∃ D, doms !! v = Some D ∧ (v, size D) ∈ l.
Proof.
  revert l. induction vars as [|var rest IH]; intros l H v; simpl in H.
  { inversion H; subst. split; [by intros ?%elem_of_nil|].
    by intros (D & _ & ?%elem_of_nil). }
  run_inv H. run_inv H. inversion H; subst. apply dom_get_Ret in Hr.
  rewrite elem_of_cons, (IH _ Hr0). split.
  - intros [->|(D & ? & ?)]; [exists r; split; [done | by left]|].
    exists D. split; [done | by right].
  - intros (D & HD & [[= -> _]|?]%elem_of_cons); [by left|]. right. eauto.
Qed.

Lemma domain_sizes_elem doms vars l p :
  domain_sizes doms vars = Ret l → p ∈ l →
  p.1 ∈ vars ∧ ∃ D, doms !! p.1 = Some D ∧ p.2 = size D.
Proof.
  revert l. induction vars as [|var rest IH]; intros l H Hp; simpl in H.
  { inversion H; subst. by apply elem_of_nil in Hp. }
  run_inv H. run_inv H. inversion H; subst. apply dom_get_Ret in Hr.
  apply elem_of_cons in Hp as [->|Hp]; simpl.
  - split; [by left | eauto].
  - destruct (IH _ Hr0 Hp) as [? ?]. split; [by right | done].
Qed.

Lemma domain_sizes_safe doms vars :
  (∀ v, v ∈ vars → is_Some (doms !! v)) →
  ∃ l, domain_sizes doms vars = Ret l ∧ List.length l = List.length vars.
Proof.
  induction vars as [|var rest IH]; intros H; simpl; [eauto|].
  destruct (H var) as [D HD]; [by left|]. apply dom_get_Ret in HD.
  rewrite HD. simpl. destruct IH as (l & -> & Hlen).
  { intros v ?. apply H. by right. }
  simpl. eexists. split; [done|]. simpl. by rewrite Hlen.
Qed.

Lemma elem_of_unassigned cw a v :
  v ∈ unassigned cw a ↔ v ∈ variables cw ∧ a !! v = None.
Proof.
  unfold unassigned. rewrite list_elem_of_filter, elem_of_elements. tauto.
Qed.

(** The selected variable is an unassigned variable of the puzzle, and no
    unassigned variable has a smaller domain. *)
Lemma select_unassigned_variable_Ret cw doms a var :
  select_unassigned_variable cw doms a = Ret var →
  var ∈ variables cw ∧ a !! var = None ∧
  ∃ D, doms !! var = Some D ∧
    ∀ v D', v ∈ variables cw → a !! v = None → doms !! v = Some D' →
      size D ≤ size D'.
Proof.
  unfold select_unassigned_variable. intros H. run_inv H.
  destruct r as [|p l]; [done|]. inversion H; subst. clear H.
  destruct (min_by_size_spec p l) as [Hin Hle].
  destruct (domain_sizes_elem _ _ _ _ Hr Hin) as (Hv & D & HD & Hsz).
  apply elem_of_unassigned in Hv as [Hv Ha].
  split_and!; [done | done |]. exists D. split; [done|].
  intros v D' Hv' Ha' HD'. rewrite <- Hsz.
  assert (Hu : v ∈ unassigned cw a) by by apply elem_of_unassigned.
  apply (domain_sizes_Ret _ _ _ Hr) in Hu as (D'' & HD'' & Hl).
  rewrite HD' in HD''. injection HD'' as <-. by apply (Hle _ Hl).
Qed.

Lemma select_unassigned_variable_safe cw doms a v :
  (∀ v, v ∈ variables cw → is_Some (doms !! v)) →
  v ∈ variables cw → a !! v = None →
  ∃ var, select_unassigned_variable cw doms a = Ret var.
Proof.
  intros Hdom Hv Ha. unfold select_unassigned_variable.
  destruct (domain_sizes_safe doms (unassigned cw a)) as (l & Hl & Hlen).
  { intros v' [? _]%elem_of_unassigned. by apply Hdom. }
  rewrite Hl. simpl. destruct l as [|p l]; [|eauto].
  assert (Hu : v ∈ unassigned cw a) by by apply elem_of_unassigned.
  destruct (unassigned cw a); [by apply elem_of_nil in Hu | done].
Qed.

Lemma lcv_key_safe doms word ns :
  (∀ nb, nb ∈ ns → is_Some (doms !! nb)) → ∃ k, lcv_key doms word ns = Ret k.
Proof.
  induction ns as [|nb ns IH]; intros H; simpl; [eauto|].
  destruct (H nb) as [D HD]; [by left|]. apply dom_get_Ret in HD.
  rewrite HD. simpl. destruct IH as [n ->]; [|simpl; eauto].
  intros nb' ?. apply H. by right.
Qed.

Lemma keyed_Ret doms ns ws l : keyed doms ns ws = Ret l → snd <$> l = ws.
Proof.
  revert l. induction ws as [|w ws IH]; intros l H; simpl in H.
  { by inversion H. }
  run_inv H. run_inv H. inversion H; subst. simpl. f_equal. by apply IH.
Qed.

Lemma keyed_safe doms ns ws :
  (∀ nb, nb ∈ ns → is_Some (doms !! nb)) → ∃ l, keyed doms ns ws = Ret l.
Proof.
  intros Hns. induction ws as [|w ws [l IH]]; simpl; [eauto|].
  destruct (lcv_key_safe doms w ns Hns) as [k ->]. simpl. rewrite IH.
  simpl. eauto.
Qed.

Lemma insert_by_key_perm p l : insert_by_key p l ≡ₚ p :: l.
Proof.
  induction l as [|q l IH]; simpl; [done|].
  destruct (decide (q.1 < p.1)); [|done]. rewrite IH. apply perm_swap.
Qed.

Lemma sorted_by_key_perm l : sorted_by_key l ≡ₚ snd <$> l.
Proof.
  unfold sorted_by_key. induction l as [|p l IH]; simpl; [done|].
  rewrite insert_by_key_perm. simpl. by rewrite IH.
Qed.

(** The ordered values are the words of the domain, each once. *)
Lemma order_domain_values_Ret cw doms var a values :
  order_domain_values cw doms var a = Ret values →
  ∃ D, doms !! var = Some D ∧ values ≡ₚ elements D.
Proof.
  unfold order_domain_values. intros H. run_inv H. run_inv H.
  inversion H; subst. apply dom_get_Ret in Hr. exists r. split; [done|].
  rewrite sorted_by_key_perm. by rewrite (keyed_Ret _ _ _ _ Hr0).
Qed.

Lemma order_domain_values_safe cw doms var a :
  (∀ v, v ∈ variables cw → is_Some (doms !! v)) → var ∈ variables cw →
  ∃ values, order_domain_values cw doms var a = Ret values.
Proof.
  intros Hdom Hvar. unfold order_domain_values.
  destruct (Hdom var Hvar) as [D HD]. apply dom_get_Ret in HD.
  rewrite HD. simpl.
  destruct (keyed_safe doms (elements (neighbors cw var)) (elements D))
    as [l ->]; [|simpl; eauto].
  intros nb Hnb%elem_of_elements%neighbors_spec. apply Hdom. tauto.
Qed.

Lemma order_domain_values_empty cw doms var a :
  doms !! var = Some ∅ → order_domain_values cw doms var a = Ret [].
Proof.
  intros HD. unfold order_domain_values. apply dom_get_Ret in HD.
  rewrite HD. simpl. by rewrite elements_empty.
Qed.

(** ** Properties of the search *)

Lemma dict_pop_Ret a var a' :
  dict_pop a var = Ret a' → is_Some (a !! var) ∧ a' = delete var a.
Proof.
  unfold dict_pop. destruct (a !! var) eqn:Hv; [|done].
  intros [= <-]. eauto.
Qed.

Lemma assignment_complete_true cw a :
  assignment_complete cw a = true ↔
  ∀ var, var ∈ variables cw → is_Some (a !! var).
Proof. unfold assignment_complete. by rewrite bool_decide_eq_true. Qed.

Lemma assignment_complete_false cw a var :
  var ∈ variables cw → a !! var = None → assignment_complete cw a = false.
Proof.
  intros Hvar Ha. destruct (assignment_complete cw a) eqn:Hc; [|done].
  rewrite assignment_complete_true in Hc.
  destruct (Hc var Hvar) as [w Hw]. congruence.
Qed.

Section search_loop.
Context (cw : Crossword) (rec : assignment → run search_result).
Context (var : CwVariable).

(** If the recursive call leaves the dict as it found it whenever it
    returns [None], so does the loop. *)
Lemma try_values_restores values a log a' log' :
  (∀ a1 a2 l, rec a1 = Ret (false, a2, l) → a2 = a1) →
  a !! var = None →
  try_values cw rec var values a log = Ret (false, a', log') → a' = a.
Proof.
  intros Hrec Ha. revert log.
  induction values as [|value rest IH]; intros log H; simpl in H.
  { by inversion H. }
  run_inv H. destruct r.
  - run_inv H. destruct r as [[returned a2] log2].
    destruct (truthy returned a2) eqn:Ht; [done|].
    run_inv H. apply dict_pop_Ret in Hr1 as [Hsome ->].
    assert (a2 = <[var := value]> a) as ->.
    { destruct returned; [|by eapply Hrec].
      unfold truthy in Ht. simpl in Ht.
      apply bool_decide_eq_false in Ht. apply dec_stable in Ht. subst a2.
      rewrite lookup_empty in Hsome. by destruct Hsome. }
    rewrite delete_insert_id in H by done. by eapply IH.
  - run_inv H. apply dict_pop_Ret in Hr0 as [_ ->].
    rewrite delete_insert_id in H by done. by eapply IH.
Qed.

(** A dict returned by the loop is one the recursive call returned, for an
    argument that passed the consistency check. *)
Lemma try_values_success (Q : assignment → Prop) values a log a' log' :
  (∀ a1 a2 l, consistent cw a1 = Ret true → rec a1 = Ret (true, a2, l) →
     Q a2) →
  try_values cw rec var values a log = Ret (true, a', log') → Q a'.
Proof.
  intros Hrec. revert a log.
  induction values as [|value rest IH]; intros a log H; simpl in H; [done|].
  run_inv H. destruct r.
  - run_inv H. destruct r as [[returned a2] log2].
    destruct (truthy returned a2) eqn:Ht.
    + inversion H; subst. unfold truthy in Ht.
      apply andb_true_iff in Ht as [-> _]. by eapply Hrec.
    + run_inv H. by eapply IH.
  - run_inv H. by eapply IH.
Qed.

End search_loop.

Lemma backtrack_restores cw doms fuel a a' log :
  backtrack cw doms fuel a = Ret (false, a', log) → a' = a.
Proof.
  revert a a' log. induction fuel as [|fuel IH]; intros a a' log H;
    simpl in H; [done|].
  destruct (assignment_complete cw a); [done|].
  run_inv H. run_inv H.
  apply select_unassigned_variable_Ret in Hr as (_ & Ha & _).
  eapply try_values_restores; [|done|done]. intros a1 a2 l. apply IH.
Qed.

Lemma backtrack_success cw doms fuel a a' log :
  consistent cw a = Ret true →
  backtrack cw doms fuel a = Ret (true, a', log) →
  assignment_complete cw a' = true ∧ consistent cw a' = Ret true.
Proof.
  revert a a' log. induction fuel as [|fuel IH]; intros a a' log Hcons H;
    simpl in H; [done|].
  destruct (assignment_complete cw a) eqn:Hc.
  { by inversion H; subst. }
  run_inv H. run_inv H.
  eapply (try_values_success cw _ _
            (λ a', assignment_complete cw a' = true ∧
                   consistent cw a' = Ret true)); [|done].
  intros a1 a2 l. apply IH.
Qed.

(** With an empty domain among the variables, the first call selects a
    variable that has no candidate and returns [None] at once. *)
Lemma backtrack_empty_domain cw doms v fuel :
  has_domains cw doms → v ∈ variables cw → doms !! v = Some ∅ →
  backtrack cw doms (S fuel) ∅ = Ret (false, ∅, [Call_backtrack]).
Proof.
  intros Hdom Hv Hempty. simpl.
  rewrite (assignment_complete_false cw ∅ v Hv (lookup_empty _)).
  destruct (select_unassigned_variable_safe cw doms ∅ v Hdom Hv
              (lookup_empty _)) as [var Hsel].
  rewrite Hsel. simpl.
  apply select_unassigned_variable_Ret in Hsel as (_ & _ & D & HD & Hmin).
  specialize (Hmin v ∅ Hv (lookup_empty _) Hempty).
  rewrite size_empty in Hmin.
  assert (D = ∅) as ->.
  { apply leibniz_equiv, size_empty_iff. lia. }
  by rewrite (order_domain_values_empty cw doms var ∅ HD).
Qed.

Lemma node_consistent_has_domains cw doms :
  node_consistent cw doms → has_domains cw doms.
Proof.
  intros Hnc v Hv. destruct (node_ok_lookup doms v (Hnc v Hv)) as (D & -> & _).
  eauto.
Qed.

(** [solve], step by step. *)
Lemma solve_Ret cw doms r doms2 log :
  solve cw doms = Ret (r, doms2, log) →
  ∃ doms1 b returned a,
    enforce_node_consistency cw doms = Ret doms1 ∧
    ac3 cw doms1 None = Ret (b, doms2) ∧
    backtrack cw doms2 (backtrack_fuel cw) ∅ = Ret (returned, a, log) ∧
    r = (if returned : bool then Some a else None).
Proof.
  unfold solve. intros H. run_inv H. rename r0 into doms1.
  run_inv H. destruct r0 as [b d2]. run_inv H.
  destruct r0 as [[returned a] l]. inversion H; subst.
  by exists doms1, b, returned, a.
Qed.

Lemma all_arcs_sources cw x y : (x, y) ∈ all_arcs cw → x ∈ variables cw.
Proof. by intros [? _]%elem_of_all_arcs. Qed.

(** After node consistency, a [False] from the full AC-3 run leaves a
    variable of the puzzle without candidates, and every variable with a
    domain. *)
Lemma ac3_false_empty_domain cw doms doms1 doms2 :
  enforce_node_consistency cw doms = Ret doms1 →
  ac3 cw doms1 None = Ret (false, doms2) →
  has_domains cw doms2 ∧ ∃ x, x ∈ variables cw ∧ doms2 !! x = Some ∅.
Proof.
  intros [_ Hnc]%enforce_node_consistency_spec Hac3. unfold ac3 in Hac3.
  simpl in Hac3. split.
  - apply node_consistent_has_domains.
    eapply node_consistent_shrinks; [|done]. by eapply ac3_loop_shrinks.
  - apply ac3_loop_false in Hac3 as (x & [Hx|(y & Hin)] & Hempty).
    + by exists x.
    + exists x. split; [|done]. by eapply all_arcs_sources.
Qed.

(** ** The search returns *)

Lemma node_loop_safe vars doms :
  (∀ v, v ∈ vars → is_Some (doms !! v)) → ∃ doms', node_loop vars doms = Ret doms'.
Proof.
  revert doms. induction vars as [|var rest IH]; intros doms H; simpl;
    [eauto|].
  destruct (H var) as [D HD]; [by left|]. apply dom_get_Ret in HD as HD'.
  rewrite HD'. simpl. apply IH. intros v Hv.
  destruct (decide (var = v)) as [->|?].
  - rewrite lookup_insert_eq. eauto.
  - rewrite lookup_insert_ne by done. apply H. by right.
Qed.

Lemma assignment_incomplete cw a :
  assignment_complete cw a = false →
  ∃ v, v ∈ variables cw ∧ a !! v = None.
Proof.
  unfold assignment_complete. intros H%bool_decide_eq_false.
  apply not_set_Forall_Exists in H as (v & Hv & Hn); [|apply _].
  exists v. split; [done|]. by apply eq_None_not_Some.
Qed.

Lemma unassigned_insert_lt cw a var w :
  var ∈ variables cw → a !! var = None →
  List.length (unassigned cw (<[var := w]> a)) < List.length (unassigned cw a).
Proof.
  intros Hvar Ha. unfold unassigned.
  rewrite (list_filter_iff (λ v, <[var := w]> a !! v = None)
             (λ v, <[var := w]> a !! v = None ∧ a !! v = None)).
  2:{ intros v. split; [|tauto]. intros Hv. split; [done|].
      destruct (decide (var = v)) as [->|?]; [done|].
      by rewrite lookup_insert_ne in Hv. }
  rewrite <- list_filter_filter. apply (length_filter_lt _ _ var).
  - apply list_elem_of_filter. by rewrite elem_of_elements.
  - by rewrite lookup_insert_eq.
Qed.

Lemma unassigned_length cw a :
  List.length (unassigned cw a) ≤ size (variables cw).
Proof. unfold unassigned. apply length_filter. Qed.

Lemma lengths_ok_insert cw a var w :
  lengths_ok cw a → String.length w = var_length var →
  lengths_ok cw (<[var := w]> a).
Proof.
  intros Ha Hw v w' Hv. destruct (decide (var = v)) as [->|?].
  - rewrite lookup_insert_eq. by intros [= <-].
  - rewrite lookup_insert_ne by done. by apply Ha.
Qed.

Lemma consistent_safe cw a :
  wf_crossword cw → lengths_ok cw a → ∃ b, consistent cw a = Ret b.
Proof.
  intros Hwf Hlen. apply consistent_loop_safe; [done | done |].
  by intros var ?%elem_of_elements.
Qed.

Section search_loop_total.
Context (cw : Crossword) (rec : assignment → run search_result).
Context (var : CwVariable).

(** The loop returns when the recursive call returns on every extension it
    is given, restores the dict when it fails, and returns only complete
    dicts. *)
Lemma try_values_total values a log :
  wf_crossword cw → var ∈ variables cw → a !! var = None →
  lengths_ok cw a →
  (∀ value, value ∈ values → String.length value = var_length var) →
  (∀ value, value ∈ values → ∃ res, rec (<[var := value]> a) = Ret res) →
  (∀ a1 a2 l, rec a1 = Ret (false, a2, l) → a2 = a1) →
  (∀ a1 a2 l, consistent cw a1 = Ret true → rec a1 = Ret (true, a2, l) →
     assignment_complete cw a2 = true) →
  ∃ res, try_values cw rec var values a log = Ret res.
Proof.
  intros Hwf Hvar Ha Hlen Hvals Hrec Hrestore Hcomplete. revert log.
  induction values as [|value rest IH]; intros log; simpl; [eauto|].
  assert (Hrest : ∀ log', ∃ res, try_values cw rec var rest a log' = Ret res).
  { apply IH; intros v ?; [apply Hvals | apply Hrec]; by right. }
  assert (Hpop : dict_pop (<[var := value]> a) var = Ret a).
  { unfold dict_pop. rewrite lookup_insert_eq.
    by rewrite delete_insert_id. }
  destruct (consistent_safe cw (<[var := value]> a) Hwf) as [ok Hok].
  { apply lengths_ok_insert; [done|]. apply Hvals. by left. }
  rewrite Hok. simpl. destruct ok.
  - destruct (Hrec value) as [[[returned a2] log2] Hres]; [by left|].
    rewrite Hres. simpl. destruct (truthy returned a2) eqn:Ht; [eauto|].
    destruct returned.
    + (* a returned dict is complete, hence not empty *)
      exfalso. unfold truthy in Ht. simpl in Ht.
      apply bool_decide_eq_false in Ht. apply dec_stable in Ht. subst a2.
      pose proof (Hcomplete _ _ _ Hok Hres) as Hc.
      rewrite assignment_complete_true in Hc.
      destruct (Hc var Hvar) as [w Hw]. by rewrite lookup_empty in Hw.
    + rewrite (Hrestore _ _ _ Hres), Hpop. simpl. apply Hrest.
  - rewrite Hpop. simpl. apply Hrest.
Qed.

End search_loop_total.

(** On a node-consistent store of a well-formed puzzle the search returns:
    it neither raises nor needs more than one level of recursion per
    unassigned variable. *)
Lemma backtrack_total cw doms fuel a :
  wf_crossword cw → node_consistent cw doms → lengths_ok cw a →
  List.length (unassigned cw a) < fuel →
  ∃ res, backtrack cw doms fuel a = Ret res.
Proof.
  intros Hwf Hnc. revert a.
  induction fuel as [|fuel IH]; intros a Hlen Hfuel; [lia|]. simpl.
  destruct (assignment_complete cw a) eqn:Hc; [eauto|].
  apply assignment_incomplete in Hc as (v & Hv & Hav).
  pose proof (node_consistent_has_domains _ _ Hnc) as Hdom.
  destruct (select_unassigned_variable_safe cw doms a v Hdom Hv Hav)
    as [var Hsel].
  rewrite Hsel. simpl.
  apply select_unassigned_variable_Ret in Hsel as (Hvar & Ha & _).
  destruct (order_domain_values_safe cw doms var a Hdom Hvar)
    as [values Hvals].
  rewrite Hvals. simpl.
  apply order_domain_values_Ret in Hvals as (D & HD & Hperm).
  destruct (node_ok_lookup doms var (Hnc var Hvar)) as (D' & HD' & HlenD).
  rewrite HD in HD'. injection HD' as <-.
  assert (Hvalues : ∀ value, value ∈ values →
            String.length value = var_length var).
  { intros value Hin. apply HlenD. apply elem_of_elements.
    by rewrite <- Hperm. }
  apply try_values_total; [done | done | done | done | done | | |].
  - intros value Hin. apply IH.
    + apply lengths_ok_insert; [done | by apply Hvalues].
    + pose proof (unassigned_insert_lt cw a var value Hvar Ha). lia.
  - intros a1 a2 l. apply backtrack_restores.
  - intros a1 a2 l Hcons Hres.
    by destruct (backtrack_success _ _ _ _ _ _ Hcons Hres).
Qed.

Lemma lengths_ok_drawn cw a doms :
  node_consistent cw doms → drawn_from a doms → lengths_ok cw a.
Proof.
  intros Hnc Hdrawn var w Hvar Hw.
  pose proof (Hdrawn var w Hw) as HwD. unfold drawn_ok in HwD.
  destruct (node_ok_lookup doms var (Hnc var Hvar)) as (D & HD & Hlen).
  rewrite HD in HwD. by apply Hlen.
Qed.

Lemma has_domains_CrosswordCreator cw : has_domains cw (CrosswordCreator cw).
Proof.
  intros v Hv. unfold CrosswordCreator.
  exists (words cw). by apply lookup_gset_to_gmap_Some.
Qed.

(** * The properties of the solver *)

(** ** revise *)

(** C7.  When the overlap map has no entry for the pair [(x, y)],
    [revise(x, y)] returns [False] and the store, hence every domain, is
    left as it was. *)
Theorem revise_no_overlap cw x y doms :
  overlaps cw !! (x, y) = None → revise cw x y doms = Ret (false, doms).
Proof. intros Hov. unfold revise. by rewrite Hov. Qed.

Lemma revise_no_overlap_witness :
  overlaps puzzle_apart !! (across0, down3) = None ∧
  revise puzzle_apart across0 down3 (CrosswordCreator puzzle_apart)
    = Ret (false, CrosswordCreator puzzle_apart).
Proof.
  split; [vm_compute; reflexivity|].
  apply (revise_no_overlap puzzle_apart across0 down3). vm_compute; reflexivity.
Defined.

(** C4.  For two different variables [x] and [y] that overlap at [(i, j)]:
    when [revise(x, y)] returns, only the domain of [x] has changed, to a
    subset of what it was; every word left in it has a word in the domain of
    [y] with the same character at the overlap; every word taken out has
    none; and the returned flag is [True] exactly when a word was taken
    out. *)
Theorem revise_sound cw x y i j doms b doms' :
  x ≠ y → overlaps cw !! (x, y) = Some (i, j) →
  revise cw x y doms = Ret (b, doms') →
  ∃ Dx Dx', doms !! x = Some Dx ∧ doms' = <[x := Dx']> doms ∧ Dx' ⊆ Dx ∧
    (∀ wx, wx ∈ Dx' →
       ∃ Dy wy, doms' !! y = Some Dy ∧ wy ∈ Dy ∧ supports i j wx wy) ∧
    (∀ wx, wx ∈ Dx → wx ∉ Dx' →
       ∀ Dy wy, doms' !! y = Some Dy → wy ∈ Dy → ¬ supports i j wx wy) ∧
    (b = true ↔ ∃ wx, wx ∈ Dx ∧ wx ∉ Dx').
Proof.
  intros Hne Hov Hrev.
  destruct (revise_spec _ _ _ _ _ _ _ _ Hne Hov Hrev)
    as (Dx & Dx' & HDx & -> & Hsub & Hkept & Hgone & Hb).
  exists Dx, Dx'. split_and!; [done | done | done | | | done].
  - intros wx Hwx. rewrite lookup_insert_ne by done. by apply Hkept.
  - intros wx Hwx Hn Dy wy. rewrite lookup_insert_ne by done.
    by apply Hgone.
Qed.

Lemma revise_sound_witness :
  let cw := puzzle_ok in
  let x := across0 in
  let y := down1 in
  let doms := CrosswordCreator puzzle_ok in
  let doms' := <[across0 := cat_ace]> (CrosswordCreator puzzle_ok) in
  x ≠ y ∧ overlaps cw !! (x, y) = Some (1, 0) ∧
  revise cw x y doms = Ret (true, doms') ∧
  ∃ Dx Dx', doms !! x = Some Dx ∧ doms' = <[x := Dx']> doms ∧ Dx' ⊆ Dx ∧
    (∀ wx, wx ∈ Dx' →
       ∃ Dy wy, doms' !! y = Some Dy ∧ wy ∈ Dy ∧ supports 1 0 wx wy) ∧
    (∀ wx, wx ∈ Dx → wx ∉ Dx' →
       ∀ Dy wy, doms' !! y = Some Dy → wy ∈ Dy → ¬ supports 1 0 wx wy) ∧
    (true = true ↔ ∃ wx, wx ∈ Dx ∧ wx ∉ Dx').
Proof.
  intros cw x y doms doms'.
  assert (Hne : x ≠ y) by (by vm_compute).
  assert (Hov : overlaps cw !! (x, y) = Some (1, 0))
    by (vm_compute; reflexivity).
  assert (Hrev : revise cw x y doms = Ret (true, doms'))
    by (vm_compute; reflexivity).
  split_and!; [done | done | done |].
  exact (revise_sound cw x y 1 0 doms true doms' Hne Hov Hrev).
Defined.

(** ** Domains only shrink *)

(** C5.  Whatever store they start from, [enforce_node_consistency],
    [revise], [ac3] (on any worklist) and [solve] as a whole end with a store
    that has, for every variable, a subset of the domain it had before: no
    word is ever added.  ([backtrack] only reads the store.) *)
Theorem domains_only_shrink cw doms :
  (∀ doms', enforce_node_consistency cw doms = Ret doms' →
     shrinks doms' doms) ∧
  (∀ x y b doms', revise cw x y doms = Ret (b, doms') → shrinks doms' doms) ∧
  (∀ arcs b doms', ac3 cw doms arcs = Ret (b, doms') → shrinks doms' doms) ∧
  (∀ r doms' log, solve cw doms = Ret (r, doms', log) → shrinks doms' doms).
Proof.
  split_and!.
  - by intros doms' [? _]%enforce_node_consistency_spec.
  - by intros x y b doms' (? & _)%revise_shrinks.
  - intros arcs b doms' H. by eapply ac3_loop_shrinks.
  - intros r doms' log (doms1 & b & _ & _ & H1 & H2 & _)%solve_Ret.
    apply enforce_node_consistency_spec in H1 as [H1 _].
    eapply shrinks_trans; [|done]. by eapply ac3_loop_shrinks.
Qed.

(** ** AC-3 *)

(** C3.  For every store and every worklist the AC-3 loop ends within
    [ac3_fuel] iterations, and more iterations change nothing.  It works
    first-in-first-out: the head arc is revised and new arcs go to the back;
    it returns [False] at the first revision that leaves the revised domain
    empty, and [True] on the empty worklist.  A [False] result leaves some
    domain empty; and on a node-consistent store of a well-formed puzzle the
    outcome is a returned boolean, never an exception. *)
Theorem ac3_terminates cw doms queue :
  ac3 cw doms (Some queue) ≠ OutOfFuel ∧
  (∀ fuel, ac3_fuel cw doms queue ≤ fuel →
     ac3_loop cw fuel doms queue = ac3 cw doms (Some queue)) ∧
  match queue with
  | [] => ac3 cw doms (Some queue) = Ret (true, doms)
  | (x, y) :: rest =>
      ac3 cw doms (Some queue) =
        '(revised, doms') ← revise cw x y doms;
        if revised : bool then
          Dx ← dom_get doms' x;
          if decide (Dx = ∅) then Ret (false, doms')
          else ac3 cw doms' (Some (rest ++ requeue cw x y))
        else ac3 cw doms' (Some rest)
  end ∧
  (∀ doms', ac3 cw doms (Some queue) = Ret (false, doms') →
     ∃ x, doms' !! x = Some ∅) ∧
  (wf_crossword cw → node_consistent cw doms →
     ∃ b doms', ac3 cw doms (Some queue) = Ret (b, doms')).
Proof.
  split_and!.
  - by apply ac3_loop_not_fuel.
  - intros fuel Hfuel. by apply ac3_loop_enough.
  - destruct queue as [|[x y] rest]; [|apply ac3_unfold].
    unfold ac3. simpl. by destruct (ac3_fuel cw doms []).
  - intros doms' (x & _ & ?)%ac3_loop_false. eauto.
  - intros Hwf Hnc.
    destruct (ac3 cw doms (Some queue)) as [[b doms']|e|] eqn:H; [eauto | |].
    + by apply ac3_loop_safe in H.
    + by apply ac3_loop_not_fuel in H.
Qed.

(** C6.  For a well-formed puzzle: when [ac3()] on the full arc set has run
    to the end of its worklist (it returned [True]), a second [ac3()] on the
    resulting store removes nothing: if it returns, it returns [True] and
    the same store.  On a node-consistent store, the kind [solve] runs it
    on, it does return. *)
Theorem ac3_idempotent cw doms doms' :
  wf_crossword cw → ac3 cw doms None = Ret (true, doms') →
  (∀ b doms'', ac3 cw doms' None = Ret (b, doms'') →
     b = true ∧ doms'' = doms') ∧
  (node_consistent cw doms → ac3 cw doms' None = Ret (true, doms')).
Proof.
  intros Hwf H1.
  assert (Hcons : ∀ a, a ∈ all_arcs cw → arc_consistent cw doms' a).
  { eapply ac3_loop_consistent; [done | | exact H1]. intros a ?. by left. }
  assert (Hfix : ∀ b doms'', ac3 cw doms' None = Ret (b, doms'') →
            b = true ∧ doms'' = doms').
  { intros b doms'' H2. by apply ac3_loop_fixpoint in H2. }
  split; [done|]. intros Hnc.
  assert (Hnc' : node_consistent cw doms').
  { eapply node_consistent_shrinks; [|done]. by eapply ac3_loop_shrinks. }
  destruct (ac3 cw doms' None) as [[b d]|e|] eqn:H2.
  - by destruct (Hfix b d eq_refl) as [-> ->].
  - by apply ac3_loop_safe in H2.
  - by apply ac3_loop_not_fuel in H2.
Qed.

Lemma ac3_idempotent_witness :
  wf_crossword puzzle_ok ∧
  ac3 puzzle_ok store_ok None = Ret (true, store_ok_ac3) ∧
  node_consistent puzzle_ok store_ok ∧
  ac3 puzzle_ok store_ok_ac3 None = Ret (true, store_ok_ac3).
Proof.
  assert (Hwf : wf_crossword puzzle_ok) by compute_done.
  assert (Hrun : ac3 puzzle_ok store_ok None = Ret (true, store_ok_ac3))
    by (vm_compute; reflexivity).
  assert (Hnc : node_consistent puzzle_ok store_ok) by compute_done.
  split_and!; [done | done | done |].
  exact (proj2 (ac3_idempotent puzzle_ok store_ok store_ok_ac3 Hwf Hrun) Hnc).
Defined.

(** X4.  After a run that returned [False] the store need not be arc
    consistent, and idempotence does not extend to it: on [puzzle_stuck]
    the first run empties the domain of [across0] and stops, and a second
    run then empties the domain of [down1] as well. *)
Example ac3_twice_after_failure :
  ac3 puzzle_stuck store_stuck None = Ret (false, store_stuck_ac3) ∧
  ac3 puzzle_stuck store_stuck_ac3 None
    = Ret (false, store_stuck_twice) ∧
  store_stuck_twice ≠ store_stuck_ac3.
Proof. split_and!; [vm_compute; reflexivity .. | compute_done]. Qed.

(** ** The search *)

(** C8.  When [backtrack(assignment)] returns [None], the dict holds
    exactly the entries it held when the call started. *)
Theorem backtrack_restores_assignment cw doms fuel a a' log :
  backtrack cw doms fuel a = Ret (false, a', log) → a' = a.
Proof. apply backtrack_restores. Qed.

Lemma backtrack_restores_assignment_witness :
  backtrack puzzle_stuck store_stuck 2 partial_stuck
    = Ret (false, partial_stuck, log_stuck) ∧
  partial_stuck = partial_stuck.
Proof.
  assert (Hrun : backtrack puzzle_stuck store_stuck 2 partial_stuck
                 = Ret (false, partial_stuck, log_stuck))
    by (vm_compute; reflexivity).
  split; [done|].
  exact (backtrack_restores_assignment puzzle_stuck store_stuck 2
           partial_stuck partial_stuck log_stuck Hrun).
Defined.

(** C9.  In a store where every variable of the puzzle has a domain and the
    one of some variable [v] is empty, [backtrack({})] returns [None] with
    the dict still empty and without a single assignment: the call is the
    only event.  Hence [solve], whatever [ac3] returned, returns [None]
    whenever the store it searches on has an empty domain. *)
Theorem empty_domain_fails cw doms v :
  has_domains cw doms → v ∈ variables cw → doms !! v = Some ∅ →
  (∀ fuel, backtrack cw doms (S fuel) ∅ = Ret (false, ∅, [Call_backtrack])) ∧
  (∀ doms0 doms1 b,
     enforce_node_consistency cw doms0 = Ret doms1 →
     ac3 cw doms1 None = Ret (b, doms) →
     solve cw doms0 = Ret (None, doms, [Call_backtrack])).
Proof.
  intros Hdom Hv Hempty. split.
  - intros fuel. by eapply backtrack_empty_domain.
  - intros doms0 doms1 b H1 H2. unfold solve, backtrack_fuel.
    rewrite H1. cbn -[backtrack ac3]. rewrite H2. cbn -[backtrack].
    by rewrite (backtrack_empty_domain cw doms v _ Hdom Hv Hempty).
Qed.

Lemma empty_domain_fails_witness :
  has_domains puzzle_stuck store_stuck_ac3 ∧
  across0 ∈ variables puzzle_stuck ∧
  store_stuck_ac3 !! across0 = Some ∅ ∧
  backtrack puzzle_stuck store_stuck_ac3 1 ∅ = Ret (false, ∅, [Call_backtrack]) ∧
  solve puzzle_stuck (CrosswordCreator puzzle_stuck)
    = Ret (None, store_stuck_ac3, [Call_backtrack]).
Proof.
  assert (Hdom : has_domains puzzle_stuck store_stuck_ac3) by compute_done.
  assert (Hv : across0 ∈ variables puzzle_stuck) by compute_done.
  assert (Hempty : store_stuck_ac3 !! across0 = Some ∅)
    by (vm_compute; reflexivity).
  destruct (empty_domain_fails puzzle_stuck store_stuck_ac3 across0
              Hdom Hv Hempty) as [Hbt Hsolve].
  split_and!; [done | done | done | apply Hbt |].
  apply (Hsolve _ store_stuck false); vm_compute; reflexivity.
Defined.

(** ** solve *)

(** C1, as the program has it.  [solve] does not look at what [ac3]
    returned: when [ac3] returns [False], [backtrack({})] is still called,
    once; it returns [None] without assigning anything, and so does
    [solve]. *)
Theorem solve_after_ac3_failure cw doms doms1 doms2 :
  enforce_node_consistency cw doms = Ret doms1 →
  ac3 cw doms1 None = Ret (false, doms2) →
  solve cw doms = Ret (None, doms2, [Call_backtrack]).
Proof.
  intros H1 H2.
  destruct (ac3_false_empty_domain _ _ _ _ H1 H2) as (Hdom & x & Hx & Hempty).
  unfold solve, backtrack_fuel.
  rewrite H1. cbn -[backtrack ac3]. rewrite H2. cbn -[backtrack].
  by rewrite (backtrack_empty_domain cw doms2 x _ Hdom Hx Hempty).
Qed.

Lemma solve_after_ac3_failure_witness :
  enforce_node_consistency puzzle_stuck (CrosswordCreator puzzle_stuck)
    = Ret store_stuck ∧
  ac3 puzzle_stuck store_stuck None = Ret (false, store_stuck_ac3) ∧
  solve puzzle_stuck (CrosswordCreator puzzle_stuck)
    = Ret (None, store_stuck_ac3, [Call_backtrack]).
Proof.
  assert (H1 : enforce_node_consistency puzzle_stuck
                 (CrosswordCreator puzzle_stuck) = Ret store_stuck)
    by (vm_compute; reflexivity).
  assert (H2 : ac3 puzzle_stuck store_stuck None
               = Ret (false, store_stuck_ac3))
    by (vm_compute; reflexivity).
  split_and!; [done | done |].
  exact (solve_after_ac3_failure puzzle_stuck _ _ _ H1 H2).
Defined.

(** C1, as stated, fails: on [puzzle_stuck] the arc-consistency run
    returns [False], and the events of [solve] still contain a call of
    [backtrack]. *)
Lemma solve_does_not_short_circuit :
  ∃ doms1 doms2 r log,
    enforce_node_consistency puzzle_stuck (CrosswordCreator puzzle_stuck)
      = Ret doms1 ∧
    ac3 puzzle_stuck doms1 None = Ret (false, doms2) ∧
    solve puzzle_stuck (CrosswordCreator puzzle_stuck) = Ret (r, doms2, log) ∧
    Call_backtrack ∈ log.
Proof.
  exists store_stuck, store_stuck_ac3, None, [Call_backtrack].
  split_and!; [vm_compute; reflexivity .. | by left].
Qed.

(** C2.  For a well-formed puzzle, an assignment returned by [solve] gives
    every variable a word of the length of the variable, agrees at the
    recorded positions for every pair of overlapping variables, and gives
    no word to two different variables. *)
Theorem solve_sound cw doms a doms2 log :
  wf_crossword cw → solve cw doms = Ret (Some a, doms2, log) →
  (∀ var, var ∈ variables cw →
     ∃ w, a !! var = Some w ∧ String.length w = var_length var) ∧
  (∀ x y i j, overlaps cw !! (x, y) = Some (i, j) →
     ∃ wx wy, a !! x = Some wx ∧ a !! y = Some wy ∧ supports i j wx wy) ∧
  (∀ x y w, x ∈ variables cw → y ∈ variables cw →
     a !! x = Some w → a !! y = Some w → x = y).
Proof.
  intros Hwf (doms1 & b & returned & a' & _ & _ & Hbt & Hr)%solve_Ret.
  destruct returned; [|done]. injection Hr as <-.
  apply backtrack_success in Hbt as [Hc Hcons]; [|apply consistent_empty].
  rewrite assignment_complete_true in Hc.
  apply consistent_true in Hcons as (Hlen & Hagree & Huniq).
  split_and!; [| |done].
  - intros var Hvar. destruct (Hc var Hvar) as [w Hw]. exists w.
    split; [done|]. by apply Hlen.
  - intros x y i j Hov.
    destruct (wf_lookup _ _ _ _ _ Hwf Hov) as (Hx & Hy & Hne & _ & _ & Hov').
    destruct (Hc x Hx) as [wx Hwx]. destruct (Hc y Hy) as [wy Hwy].
    exists wx, wy. split_and!; [done | done |].
    destruct (Hagree x y wx wy Hx) as (i' & j' & Hov2 & Hsup);
      [| done | done |].
    + apply neighbors_spec. split_and!; [done | by intros -> | eauto].
    + rewrite Hov in Hov2. by injection Hov2 as <- <-.
Qed.

Lemma solve_sound_witness :
  let cw := puzzle_ok in
  let a := solution_ok in
  wf_crossword cw ∧
  solve cw (CrosswordCreator cw) = Ret (Some a, store_ok_ac3, log_ok) ∧
  (∀ var, var ∈ variables cw →
     ∃ w, a !! var = Some w ∧ String.length w = var_length var) ∧
  (∀ x y i j, overlaps cw !! (x, y) = Some (i, j) →
     ∃ wx wy, a !! x = Some wx ∧ a !! y = Some wy ∧ supports i j wx wy) ∧
  (∀ x y w, x ∈ variables cw → y ∈ variables cw →
     a !! x = Some w → a !! y = Some w → x = y).
Proof.
  intros cw a.
  assert (Hwf : wf_crossword cw) by compute_done.
  assert (Hrun : solve cw (CrosswordCreator cw)
                 = Ret (Some a, store_ok_ac3, log_ok))
    by (vm_compute; reflexivity).
  split; [done|]. split; [done|].
  exact (solve_sound cw (CrosswordCreator cw) a store_ok_ac3 log_ok Hwf Hrun).
Defined.

(** ** No exception *)

(** C10.  In a store that enforce_node_consistency produced, or a later
    one with smaller domains, every word has the length of its variable.
    For an assignment whose words are drawn from such a store, and a
    well-formed puzzle, [consistent] returns a boolean: no index is out of
    range.  And [backtrack], started from such an assignment, returns as
    well: none of the consistency checks it makes raises. *)
Theorem consistent_never_raises cw doms0 doms1 doms a :
  wf_crossword cw →
  enforce_node_consistency cw doms0 = Ret doms1 → shrinks doms doms1 →
  drawn_from a doms →
  node_consistent cw doms ∧ lengths_ok cw a ∧
  (∃ b, consistent cw a = Ret b) ∧
  (∃ res, backtrack cw doms (backtrack_fuel cw) a = Ret res).
Proof.
  intros Hwf [_ Hnc1]%enforce_node_consistency_spec Hs Hdrawn.
  pose proof (node_consistent_shrinks _ _ _ Hs Hnc1) as Hnc.
  pose proof (lengths_ok_drawn _ _ _ Hnc Hdrawn) as Hlen.
  split_and!; [done | done | by apply consistent_safe |].
  apply backtrack_total; [done | done | done |].
  pose proof (unassigned_length cw a). unfold backtrack_fuel. lia.
Qed.

Lemma consistent_never_raises_witness :
  let cw := puzzle_ok in
  let a : assignment := partial_ok in
  wf_crossword cw ∧
  enforce_node_consistency cw (CrosswordCreator cw) = Ret store_ok ∧
  shrinks store_ok_ac3 store_ok ∧ drawn_from a store_ok_ac3 ∧
  node_consistent cw store_ok_ac3 ∧ lengths_ok cw a ∧
  (∃ b, consistent cw a = Ret b) ∧
  (∃ res, backtrack cw store_ok_ac3 (backtrack_fuel cw) a = Ret res).
Proof.
  intros cw a.
  assert (Hwf : wf_crossword cw) by compute_done.
  assert (H1 : enforce_node_consistency cw (CrosswordCreator cw)
               = Ret store_ok) by (vm_compute; reflexivity).
  assert (Hs : shrinks store_ok_ac3 store_ok) by compute_done.
  assert (Hd : drawn_from a store_ok_ac3) by compute_done.
  split_and!; [done | done | done | done | ..];
    apply (consistent_never_raises cw (CrosswordCreator cw) store_ok
             store_ok_ac3 a Hwf H1 Hs Hd).
Defined.

(** X1.  For a well-formed puzzle, [solve] on the store built by the
    constructor returns: either an assignment or [None], never an
    exception, and the iteration bounds of the embedding are never
    reached. *)
Theorem solve_total cw :
  wf_crossword cw →
  ∃ r doms log, solve cw (CrosswordCreator cw) = Ret (r, doms, log).
Proof.
  intros Hwf. unfold solve.
  destruct (node_loop_safe (elements (variables cw)) (CrosswordCreator cw))
    as [doms1 H1].
  { intros v Hv%elem_of_elements. by apply has_domains_CrosswordCreator. }
  fold (enforce_node_consistency cw (CrosswordCreator cw)) in H1.
  rewrite H1. cbn -[backtrack ac3].
  apply enforce_node_consistency_spec in H1 as [_ Hnc1].
  destruct (ac3 cw doms1 None) as [[b doms2]|e|] eqn:H2.
  2:{ by apply ac3_loop_safe in H2. }
  2:{ by apply ac3_loop_not_fuel in H2. }
  cbn -[backtrack].
  apply ac3_loop_shrinks in H2 as Hs.
  pose proof (node_consistent_shrinks _ _ _ Hs Hnc1) as Hnc2.
  destruct (backtrack_total cw doms2 (backtrack_fuel cw) ∅ Hwf Hnc2)
    as [[[returned a] log] ->].
  - by intros var w _ ?%lookup_empty_Some.
  - pose proof (unassigned_length cw ∅). unfold backtrack_fuel. lia.
  - cbn. eauto.
Qed.

Lemma solve_total_witness :
  wf_crossword puzzle_apart ∧
  ∃ r doms log,
    solve puzzle_apart (CrosswordCreator puzzle_apart) = Ret (r, doms, log).
Proof.
  assert (Hwf : wf_crossword puzzle_apart) by compute_done.
  split; [done|]. exact (solve_total puzzle_apart Hwf).
Defined.

(** ** Two scenarios *)

(** X2.  A puzzle without variables: [solve] returns the empty assignment
    from the first call of [backtrack]. *)
Theorem solve_empty_puzzle cw doms :
  variables cw = ∅ → solve cw doms = Ret (Some ∅, doms, [Call_backtrack]).
Proof.
  intros Hvars. unfold solve, enforce_node_consistency, ac3, all_arcs,
    backtrack_fuel.
  rewrite Hvars, elements_empty. simpl.
  destruct (ac3_fuel cw doms []); simpl;
    by rewrite (proj2 (assignment_complete_true cw ∅)) by set_solver.
Qed.

Lemma solve_empty_puzzle_witness :
  variables puzzle_empty = ∅ ∧
  solve puzzle_empty (CrosswordCreator puzzle_empty)
    = Ret (Some ∅, CrosswordCreator puzzle_empty, [Call_backtrack]).
Proof.
  split; [reflexivity|].
  exact (solve_empty_puzzle puzzle_empty (CrosswordCreator puzzle_empty)
           eq_refl).
Defined.

(** X3.  A well-formed puzzle with a variable whose length no word of the
    word list has: [solve] returns [None], from the first call of
    [backtrack]. *)
Theorem solve_no_word_of_length cw v :
  wf_crossword cw → v ∈ variables cw →
  (∀ w, w ∈ words cw → String.length w ≠ var_length v) →
  ∃ doms, solve cw (CrosswordCreator cw) = Ret (None, doms, [Call_backtrack]).
Proof.
  intros Hwf Hv Hnone. unfold solve, backtrack_fuel.
  destruct (node_loop_safe (elements (variables cw)) (CrosswordCreator cw))
    as [doms1 H1].
  { intros x Hx%elem_of_elements. by apply has_domains_CrosswordCreator. }
  fold (enforce_node_consistency cw (CrosswordCreator cw)) in H1.
  rewrite H1. cbn -[backtrack ac3].
  pose proof (enforce_node_consistency_spec _ _ _ H1) as [_ Hnc1].
  assert (Hv1 : doms1 !! v = Some ∅).
  { destruct (node_loop_spec _ _ _ (NoDup_elements _) H1 v) as [Hin _].
    destruct Hin as (D & HD & ->); [by apply elem_of_elements|].
    apply lookup_gset_to_gmap_Some in HD as [_ <-]. f_equal.
    apply leibniz_equiv, elem_of_equiv_empty. intros w.
    unfold node_filter. rewrite elem_of_filter. intros [? ?].
    by eapply Hnone. }
  destruct (ac3 cw doms1 None) as [[b doms2]|e|] eqn:H2.
  2:{ by apply ac3_loop_safe in H2. }
  2:{ by apply ac3_loop_not_fuel in H2. }
  cbn -[backtrack]. apply ac3_loop_shrinks in H2 as Hs.
  pose proof (node_consistent_shrinks _ _ _ Hs Hnc1) as Hnc2.
  destruct (shrinks_lookup_r _ _ _ _ Hs Hv1) as (D' & Hv2 & Hsub).
  assert (D' = ∅) as ->.
  { apply leibniz_equiv, elem_of_equiv_empty. intros w Hw.
    by apply Hsub, elem_of_empty in Hw. }
  rewrite (backtrack_empty_domain cw doms2 v _
             (node_consistent_has_domains _ _ Hnc2) Hv Hv2).
  cbn. eauto.
Qed.

Lemma solve_no_word_of_length_witness :
  wf_crossword puzzle_short ∧ across0 ∈ variables puzzle_short ∧
  (∀ w, w ∈ words puzzle_short → String.length w ≠ var_length across0) ∧
  ∃ doms, solve puzzle_short (CrosswordCreator puzzle_short)
          = Ret (None, doms, [Call_backtrack]).
Proof.
  assert (Hwf : wf_crossword puzzle_short) by compute_done.
  assert (Hv : across0 ∈ variables puzzle_short) by compute_done.
  assert (Hnone : ∀ w, w ∈ words puzzle_short →
            String.length w ≠ var_length across0).
  { apply (bool_decide_unpack
      (set_Forall (λ w, String.length w ≠ var_length across0)
         (words puzzle_short))). vm_compute. exact I. }
  split_and!; [done | done | done |].
  exact (solve_no_word_of_length puzzle_short across0 Hwf Hv Hnone).
Defined.

(** * Further properties of the program *)

(** ** consistent, characterised *)

Lemma neighbors_agree_complete cw a var word ns :
  (∀ nb wn, nb ∈ ns → a !! nb = Some wn →
     ∃ i j, overlaps cw !! (var, nb) = Some (i, j) ∧ supports i j word wn) →
  neighbors_agree cw a var word ns = Ret true.
Proof.
  induction ns as [|nb ns IH]; simpl; intros Hok; [done|].
  assert (Hrest : neighbors_agree cw a var word ns = Ret true).
  { apply IH. intros nb' wn ? ?. apply Hok; [by right | done]. }
  destruct (a !! nb) as [wn|] eqn:Hnb; [|done].
  destruct (Hok nb wn) as (i & j & -> & c & Hc1 & Hc2); [by left | done |].
  apply str_index_Ret in Hc1, Hc2. rewrite Hc1, Hc2. simpl.
  by destruct (decide (c ≠ c)).
Qed.

Lemma consistent_loop_complete cw a vars seen :
  wf_crossword cw → consistent_spec cw a → NoDup vars →
  (∀ var, var ∈ vars → var ∈ variables cw) →
  (∀ var w, var ∈ vars → a !! var = Some w → w ∉ seen) →
  consistent_loop cw a vars seen = Ret true.
Proof.
  intros Hwf (Hlen & Hagree & Huniq). revert seen.
  induction vars as [|var rest IH]; intros seen Hnd Hvars Hseen; simpl;
    [done|].
  apply NoDup_cons in Hnd as [Hfresh Hnd].
  assert (Hvar : var ∈ variables cw) by (apply Hvars; by left).
  assert (Hrest : ∀ v, v ∈ rest → v ∈ variables cw).
  { intros v ?. apply Hvars. by right. }
  destruct (a !! var) as [word|] eqn:Ha.
  2:{ apply IH; [done | done |]. intros v w ?. apply Hseen. by right. }
  destruct (decide (String.length word ≠ var_length var)) as [Hn|_].
  { by destruct (Hn (Hlen var word Hvar Ha)). }
  rewrite (neighbors_agree_complete cw a var word).
  2:{ intros nb wn Hnb%elem_of_elements Hwn.
      destruct (wf_neighbors cw var nb Hwf Hnb) as (_ & i & j & Hov).
      exists i, j. split; [done|]. by eapply Hagree. }
  simpl. destruct (decide (word ∈ seen)) as [Hin|_].
  { destruct (Hseen var word); [by left | done | done]. }
  apply IH; [done | done |]. intros v w Hv Hw [Heq%elem_of_singleton|Hin]%elem_of_union.
  - subst w. assert (v = var) as -> by (eapply Huniq; eauto). done.
  - by apply (Hseen v w); [right|..].
Qed.

Lemma consistent_spec_weaken cw a s :
  a ⊆ s → consistent_spec cw s → consistent_spec cw a.
Proof.
  intros Hsub (Hlen & Hagree & Huniq). split_and!.
  - intros v w Hv Hw. apply (Hlen v w Hv). by eapply lookup_weaken.
  - intros x y wx wy i j Hx Hy. apply Hagree; by eapply lookup_weaken.
  - intros x y w Hx Hy Hwx Hwy. apply (Huniq x y w); [done | done | |];
      by eapply lookup_weaken.
Qed.

Lemma consistent_characterised cw a :
  wf_crossword cw → (consistent cw a = Ret true ↔ consistent_spec cw a).
Proof.
  intros Hwf. split.
  - intros (Hlen & Hagree & Huniq)%consistent_true. split_and!; [done | | done].
    intros x y wx wy i j Hx Hy Hov.
    destruct (wf_lookup _ _ _ _ _ Hwf Hov) as (Hxv & Hyv & Hne & _ & _ & Hov').
    destruct (Hagree x y wx wy Hxv) as (i' & j' & Hov2 & Hsup);
      [| done | done |].
    + apply neighbors_spec. split_and!; [done | by intros -> | eauto].
    + rewrite Hov in Hov2. by injection Hov2 as <- <-.
  - intros Hspec. apply consistent_loop_complete;
      [done | done | apply NoDup_elements | | ].
    + by intros var ?%elem_of_elements.
    + intros var w _ _. apply not_elem_of_empty.
Qed.

(** X5.  For a well-formed puzzle, [consistent] returns [True] exactly when
    the three conditions hold together: lengths, agreement at every overlap
    between assigned variables, and no word used twice. *)
Theorem consistent_iff cw a :
  wf_crossword cw → (consistent cw a = Ret true ↔ consistent_spec cw a).
Proof. apply consistent_characterised. Qed.

Lemma consistent_iff_witness :
  wf_crossword puzzle_ok ∧
  (consistent puzzle_ok solution_ok = Ret true ↔
   consistent_spec puzzle_ok solution_ok).
Proof.
  assert (Hwf : wf_crossword puzzle_ok) by compute_done.
  split; [done|]. exact (consistent_iff puzzle_ok solution_ok Hwf).
Defined.

(** ** What propagation keeps *)

Lemma revise_keeps cw P x y doms b doms' :
  wf_crossword cw → self_supporting cw P → inside P doms →
  revise cw x y doms = Ret (b, doms') → inside P doms'.
Proof.
  intros Hwf Hself Hin Hrev.
  destruct (overlaps cw !! (x, y)) as [[i j]|] eqn:Hov.
  2:{ unfold revise in Hrev. rewrite Hov in Hrev. by inversion Hrev; subst. }
  destruct (wf_lookup _ _ _ _ _ Hwf Hov) as (_ & _ & Hne & _).
  destruct (revise_spec _ _ _ _ _ _ _ _ Hne Hov Hrev)
    as (Dx & Dx' & HDx & -> & _ & _ & Hgone & _).
  intros x' w HP. destruct (Hin x' w HP) as (D & HD & Hw).
  destruct (decide (x = x')) as [<-|Hx'].
  2:{ exists D. by rewrite lookup_insert_ne. }
  rewrite HDx in HD. injection HD as <-.
  exists Dx'. rewrite lookup_insert_eq. split; [done|].
  destruct (decide (w ∈ Dx')) as [|Hn]; [done|]. exfalso.
  destruct (Hself x y i j w Hov HP) as (wy & HPy & Hsup).
  destruct (Hin y wy HPy) as (Dy & HDy & Hwy).
  by apply (Hgone w Hw Hn Dy wy HDy Hwy).
Qed.

Lemma ac3_loop_keeps cw P fuel doms queue b doms' :
  wf_crossword cw → self_supporting cw P → inside P doms →
  ac3_loop cw fuel doms queue = Ret (b, doms') → inside P doms'.
Proof.
  intros Hwf Hself. revert doms queue.
  induction fuel as [|fuel IH]; intros doms queue Hin H.
  { destruct queue as [|[x y] q]; [|done]. by inversion H; subst. }
  destruct queue as [|[x y] q]; [by inversion H; subst|].
  rewrite ac3_loop_step in H. run_inv H. destruct r as [revised doms1].
  pose proof (revise_keeps _ _ _ _ _ _ _ Hwf Hself Hin Hr) as Hin1.
  destruct revised; [|by eapply IH].
  run_inv H. destruct (decide (r = ∅)); [by inversion H; subst|].
  by eapply IH.
Qed.

Lemma node_loop_keeps vars doms doms' (P : CwVariable → string → Prop) :
  NoDup vars → inside P doms →
  (∀ x w, P x w → String.length w = var_length x) →
  node_loop vars doms = Ret doms' → inside P doms'.
Proof.
  intros Hnd Hin Hlen H x w HP. destruct (Hin x w HP) as (D & HD & Hw).
  destruct (node_loop_spec _ _ _ Hnd H x) as [Hyes Hno].
  destruct (decide (x ∈ vars)) as [Hx|Hx].
  - destruct (Hyes Hx) as (D' & HD' & ->). rewrite HD in HD'.
    injection HD' as <-. eexists. split; [done|].
    apply elem_of_filter. split; [by apply Hlen | done].
  - exists D. by rewrite (Hno Hx).
Qed.

Lemma arc_consistent_self_supporting cw sub :
  (∀ a, arc_consistent cw sub a) →
  self_supporting cw (λ x w, ∃ D, sub !! x = Some D ∧ w ∈ D).
Proof.
  intros Hac x y i j wx Hov (D & HD & Hw).
  destruct (Hac (x, y) i j D wx Hov HD Hw) as (Dy & wy & ? & ? & ?).
  exists wy. eauto.
Qed.

Lemma ac3_loop_consistent_all cw doms doms' :
  wf_crossword cw → ac3 cw doms None = Ret (true, doms') →
  ∀ a, arc_consistent cw doms' a.
Proof.
  intros Hwf H [x y] i j Dx wx Hov.
  destruct (wf_lookup _ _ _ _ _ Hwf Hov) as (Hx & Hy & Hne & _ & _ & Hov').
  assert (Hxy : arc_consistent cw doms' (x, y)); [|by apply Hxy].
  eapply ac3_loop_consistent; [done | | exact H |].
  - intros a ?. by left.
  - apply elem_of_all_arcs. split; [done|]. apply neighbors_spec.
    split_and!; [done | by intros -> | eauto].
Qed.

(** X6.  For a well-formed puzzle, when [ac3()] on the full arc set returns
    [True], the store it leaves is arc consistent: for every pair of
    variables with an overlap entry, every word left for the first has a
    word left for the second with the same character at the overlap. *)
Theorem ac3_arc_consistent cw doms doms' :
  wf_crossword cw → ac3 cw doms None = Ret (true, doms') →
  ∀ a, arc_consistent cw doms' a.
Proof. intros Hwf H. by eapply ac3_loop_consistent_all. Qed.

Lemma ac3_arc_consistent_witness :
  wf_crossword puzzle_ok ∧
  ac3 puzzle_ok store_ok None = Ret (true, store_ok_ac3) ∧
  ∀ a, arc_consistent puzzle_ok store_ok_ac3 a.
Proof.
  assert (Hwf : wf_crossword puzzle_ok) by compute_done.
  assert (Hrun : ac3 puzzle_ok store_ok None = Ret (true, store_ok_ac3))
    by (vm_compute; reflexivity).
  split_and!; [done | done |].
  exact (ac3_arc_consistent puzzle_ok store_ok store_ok_ac3 Hwf Hrun).
Defined.

(** X7.  For a well-formed puzzle, [ac3], on any worklist and whatever it
    returns, removes no word of an arc-consistent store that lies below the
    store it started from: the result still lies above it.  So a [True]
    result of [ac3()] is the largest arc-consistent store below the initial
    one. *)
Theorem ac3_keeps_arc_consistent_part cw doms arcs b doms' sub :
  wf_crossword cw → (∀ a, arc_consistent cw sub a) → shrinks sub doms →
  ac3 cw doms arcs = Ret (b, doms') → shrinks sub doms'.
Proof.
  intros Hwf Hac Hsub H.
  pose proof (ac3_loop_shrinks _ _ _ _ _ _ H) as Hs.
  assert (Hin : inside (λ x w, ∃ D, sub !! x = Some D ∧ w ∈ D) doms').
  { eapply ac3_loop_keeps;
      [done | by apply arc_consistent_self_supporting | | exact H].
    intros x w (D & HD & Hw). specialize (Hsub x). rewrite HD in Hsub.
    destruct (doms !! x) as [D0|]; [|done]. exists D0. split; [done|].
    by apply Hsub. }
  intros v. pose proof (Hsub v) as Hv. pose proof (Hs v) as Hv'.
  destruct (sub !! v) as [D|] eqn:HD.
  - destruct (doms !! v) as [D0|]; [|done].
    destruct (doms' !! v) as [D'|] eqn:HD'; [|done].
    intros w Hw. destruct (Hin v w) as (D'' & HD'' & ?); [eauto|].
    rewrite HD' in HD''. by injection HD'' as <-.
  - destruct (doms !! v); [done|]. by destruct (doms' !! v).
Qed.

Lemma ac3_keeps_arc_consistent_part_witness :
  wf_crossword puzzle_ok ∧
  (∀ a, arc_consistent puzzle_ok store_ok_ac3 a) ∧
  shrinks store_ok_ac3 store_ok ∧
  ac3 puzzle_ok store_ok None = Ret (true, store_ok_ac3) ∧
  shrinks store_ok_ac3 store_ok_ac3.
Proof.
  assert (Hwf : wf_crossword puzzle_ok) by compute_done.
  assert (Hrun : ac3 puzzle_ok store_ok None = Ret (true, store_ok_ac3))
    by (vm_compute; reflexivity).
  assert (Hac : ∀ a, arc_consistent puzzle_ok store_ok_ac3 a).
  { eapply ac3_loop_consistent_all; [exact Hwf | exact Hrun]. }
  assert (Hs : shrinks store_ok_ac3 store_ok) by compute_done.
  split_and!; [done | done | done | done |].
  exact (ac3_keeps_arc_consistent_part puzzle_ok store_ok None true
           store_ok_ac3 store_ok_ac3 Hwf Hac Hs Hrun).
Defined.

(** ** What the search returns, and when *)

Section search_loop_more.
Context (cw : Crossword) (rec : assignment → run search_result).
Context (var : CwVariable).
Hypothesis rec_restores : ∀ a1 a2 l, rec a1 = Ret (false, a2, l) → a2 = a1.

(** A dict returned by the loop is what the recursive call returned for the
    dict of the start extended by one of the values. *)
Lemma try_values_origin values a log a' log' :
  a !! var = None →
  try_values cw rec var values a log = Ret (true, a', log') →
  ∃ value l, value ∈ values ∧
    consistent cw (<[var := value]> a) = Ret true ∧
    rec (<[var := value]> a) = Ret (true, a', l).
Proof.
  intros Ha. revert log.
  induction values as [|value rest IH]; intros log H; simpl in H; [done|].
  assert (Hnext : ∀ log0, try_values cw rec var rest a log0
                          = Ret (true, a', log') →
            ∃ value0 l, value0 ∈ value :: rest ∧
              consistent cw (<[var := value0]> a) = Ret true ∧
              rec (<[var := value0]> a) = Ret (true, a', l)).
  { intros log0 (v & l & ? & ? & ?)%IH. exists v, l. split; [by right|done]. }
  run_inv H. destruct r.
  - run_inv H. destruct r as [[returned a2] log2].
    destruct (truthy returned a2) eqn:Ht.
    + inversion H; subst. unfold truthy in Ht.
      apply andb_true_iff in Ht as [-> _].
      exists value, log2. split; [by left | done].
    + run_inv H. apply dict_pop_Ret in Hr1 as [Hsome ->].
      assert (a2 = <[var := value]> a) as ->.
      { destruct returned; [|by eapply rec_restores].
        unfold truthy in Ht. simpl in Ht.
        apply bool_decide_eq_false in Ht. apply dec_stable in Ht. subst a2.
        rewrite lookup_empty in Hsome. by destruct Hsome. }
      rewrite delete_insert_id in H by done. by eapply Hnext.
  - run_inv H. apply dict_pop_Ret in Hr0 as [_ ->].
    rewrite delete_insert_id in H by done. by eapply Hnext.
Qed.

(** If the recursive call succeeds for one of the values, and returns for
    all of them, the loop returns a dict. *)
Lemma try_values_finds values a log w :
  wf_crossword cw → var ∈ variables cw → a !! var = None →
  lengths_ok cw a →
  (∀ value, value ∈ values → String.length value = var_length var) →
  (∀ value, value ∈ values → ∃ res, rec (<[var := value]> a) = Ret res) →
  (∀ a1 a2 l, consistent cw a1 = Ret true → rec a1 = Ret (true, a2, l) →
     assignment_complete cw a2 = true) →
  w ∈ values → consistent cw (<[var := w]> a) = Ret true →
  (∃ a2 l, rec (<[var := w]> a) = Ret (true, a2, l)) →
  ∃ a' log', try_values cw rec var values a log = Ret (true, a', log').
Proof.
  intros Hwf Hvar Ha Hlen Hvals Hrec Hcomplete Hw Hcw (aw & lw & Hrw).
  revert log Hw.
  induction values as [|value rest IH]; intros log Hw; simpl;
    [by apply elem_of_nil in Hw|].
  assert (Hrest : value ≠ w → ∀ log0,
            ∃ a' log', try_values cw rec var rest a log0
                       = Ret (true, a', log')).
  { intros Hne log0. apply IH.
    - intros v ?. apply Hvals. by right.
    - intros v ?. apply Hrec. by right.
    - by apply elem_of_cons in Hw as [->|?]. }
  assert (Hpop : dict_pop (<[var := value]> a) var = Ret a).
  { unfold dict_pop. rewrite lookup_insert_eq.
    by rewrite delete_insert_id. }
  destruct (consistent_safe cw (<[var := value]> a) Hwf) as [ok Hok].
  { apply lengths_ok_insert; [done|]. apply Hvals. by left. }
  rewrite Hok. simpl. destruct ok.
  - destruct (Hrec value) as [[[returned a2] log2] Hres]; [by left|].
    rewrite Hres. simpl. destruct (truthy returned a2) eqn:Ht; [eauto|].
    assert (returned = false) as ->.
    { destruct returned; [|done]. exfalso. unfold truthy in Ht. simpl in Ht.
      apply bool_decide_eq_false in Ht. apply dec_stable in Ht. subst a2.
      pose proof (Hcomplete _ _ _ Hok Hres) as Hc.
      rewrite assignment_complete_true in Hc.
      destruct (Hc var Hvar) as [w0 Hw0]. by rewrite lookup_empty in Hw0. }
    rewrite (rec_restores _ _ _ Hres), Hpop. simpl. apply Hrest.
    intros ->. congruence.
  - rewrite Hpop. simpl. apply Hrest. intros ->. congruence.
Qed.

End search_loop_more.

(** A returned dict extends the dict of the start, is complete, and every
    entry it adds is a word of the domain of a variable of the puzzle. *)
Lemma backtrack_extends cw doms fuel a a' log :
  backtrack cw doms fuel a = Ret (true, a', log) →
  a ⊆ a' ∧
  ∀ v w, a' !! v = Some w → a !! v = Some w ∨
    (v ∈ variables cw ∧ drawn_ok doms v w).
Proof.
  revert a a' log. induction fuel as [|fuel IH]; intros a a' log H;
    simpl in H; [done|].
  destruct (assignment_complete cw a).
  { inversion H; subst. split; [done | auto]. }
  run_inv H. rename r into var. run_inv H. rename r into values.
  apply select_unassigned_variable_Ret in Hr as (Hvar & Ha & _).
  apply order_domain_values_Ret in Hr0 as (D & HD & Hperm).
  apply try_values_origin in H as (value & l & Hin & _ & Hrec);
    [| by intros a1 a2 l0 ?%backtrack_restores | done].
  apply IH in Hrec as [Hsub Hnew]. split.
  - etransitivity; [|exact Hsub]. by apply insert_subseteq.
  - intros v w Hw. destruct (Hnew v w Hw) as [Hold|?]; [|by right].
    destruct (decide (var = v)) as [<-|Hne].
    + rewrite lookup_insert_eq in Hold. injection Hold as <-. right.
      split; [done|]. unfold drawn_ok. rewrite HD.
      apply elem_of_elements. by rewrite <- Hperm.
    + rewrite lookup_insert_ne in Hold by done. by left.
Qed.

(** The search is complete: from a dict that a solution drawn from the
    store extends, it returns a dict. *)
Lemma backtrack_complete cw doms s fuel a :
  wf_crossword cw → node_consistent cw doms → consistent_spec cw s →
  (∀ v, v ∈ variables cw → ∃ w, s !! v = Some w ∧ drawn_ok doms v w) →
  a ⊆ s → List.length (unassigned cw a) < fuel →
  ∃ a' log, backtrack cw doms fuel a = Ret (true, a', log).
Proof.
  intros Hwf Hnc Hs Hdrawn. revert a.
  induction fuel as [|fuel IH]; intros a Hsub Hfuel; [lia|]. simpl.
  destruct (assignment_complete cw a) eqn:Hc; [eauto|].
  assert (Hlen : lengths_ok cw a).
  { by destruct (consistent_spec_weaken cw a s Hsub Hs). }
  apply assignment_incomplete in Hc as (v & Hv & Hav).
  pose proof (node_consistent_has_domains _ _ Hnc) as Hdom.
  destruct (select_unassigned_variable_safe cw doms a v Hdom Hv Hav)
    as [var Hsel].
  rewrite Hsel. simpl.
  apply select_unassigned_variable_Ret in Hsel as (Hvar & Ha & _).
  destruct (order_domain_values_safe cw doms var a Hdom Hvar)
    as [values Hvals].
  rewrite Hvals. simpl.
  apply order_domain_values_Ret in Hvals as (D & HD & Hperm).
  destruct (node_ok_lookup doms var (Hnc var Hvar)) as (D' & HD' & HlenD).
  rewrite HD in HD'. injection HD' as <-.
  assert (Hvalues : ∀ value, value ∈ values →
            String.length value = var_length var).
  { intros value Hin. apply HlenD. apply elem_of_elements.
    by rewrite <- Hperm. }
  destruct (Hdrawn var Hvar) as (w & Hsw & Hw).
  unfold drawn_ok in Hw. rewrite HD in Hw.
  assert (Hsub1 : <[var := w]> a ⊆ s) by by apply insert_subseteq_l.
  assert (Hfuel1 : ∀ value,
            List.length (unassigned cw (<[var := value]> a)) < fuel).
  { intros value.
    pose proof (unassigned_insert_lt cw a var value Hvar Ha). lia. }
  apply (try_values_finds cw _ var) with (w := w);
    [| done | done | done | done | done | | | | |].
  - intros a1 a2 l. apply backtrack_restores.
  - intros value Hin. apply backtrack_total; [done | done | | done].
    apply lengths_ok_insert; [done | by apply Hvalues].
  - intros a1 a2 l Hcons Hres.
    by destruct (backtrack_success _ _ _ _ _ _ Hcons Hres).
  - rewrite Hperm. by apply elem_of_elements.
  - apply consistent_characterised; [done|].
    by eapply consistent_spec_weaken.
  - by apply IH.
Qed.

(** ** solve decides the puzzle *)

Lemma solution_self_supporting cw s :
  wf_crossword cw → consistent_spec cw s →
  (∀ v, v ∈ variables cw → is_Some (s !! v)) →
  self_supporting cw (λ x w, x ∈ variables cw ∧ s !! x = Some w).
Proof.
  intros Hwf (_ & Hagree & _) Htotal x y i j wx Hov [Hx Hwx].
  destruct (wf_lookup _ _ _ _ _ Hwf Hov) as (_ & Hy & _).
  destruct (Htotal y Hy) as [wy Hwy]. exists wy. split; [done|].
  by eapply Hagree.
Qed.

(** From a store that has a domain for every variable, [solve] returns an
    assignment when some solution is drawn from that store. *)
Lemma solve_complete_from cw doms s :
  wf_crossword cw → has_domains cw doms → consistent_spec cw s →
  (∀ v, v ∈ variables cw → ∃ w, s !! v = Some w ∧ drawn_ok doms v w) →
  ∃ a doms2 log, solve cw doms = Ret (Some a, doms2, log).
Proof.
  intros Hwf Hdom Hs Hdrawn. unfold solve.
  pose (P := λ x w, x ∈ variables cw ∧ s !! x = Some w).
  assert (Hself : self_supporting cw P).
  { apply solution_self_supporting; [done | done |].
    intros v Hv. destruct (Hdrawn v Hv) as (w & -> & _). eauto. }
  assert (Hin : inside P doms).
  { intros x w [Hx Hw]. destruct (Hdrawn x Hx) as (w' & Hw' & Hd).
    rewrite Hw in Hw'. injection Hw' as <-. unfold drawn_ok in Hd.
    destruct (doms !! x) as [D|]; [eauto | done]. }
  destruct (node_loop_safe (elements (variables cw)) doms) as [doms1 H1].
  { intros v Hv%elem_of_elements. by apply Hdom. }
  assert (Hin1 : inside P doms1).
  { eapply node_loop_keeps;
      [apply (NoDup_elements (variables cw)) | done | | exact H1].
    intros x w [Hx Hw]. destruct Hs as (Hlen & _). by apply Hlen. }
  fold (enforce_node_consistency cw doms) in H1.
  rewrite H1. cbn -[backtrack ac3].
  apply enforce_node_consistency_spec in H1 as [_ Hnc1].
  destruct (ac3 cw doms1 None) as [[b doms2]|e|] eqn:H2.
  2:{ by apply ac3_loop_safe in H2. }
  2:{ by apply ac3_loop_not_fuel in H2. }
  cbn -[backtrack].
  pose proof (ac3_loop_keeps _ _ _ _ _ _ _ Hwf Hself Hin1 H2) as Hin2.
  apply ac3_loop_shrinks in H2 as Hsh.
  pose proof (node_consistent_shrinks _ _ _ Hsh Hnc1) as Hnc2.
  destruct (backtrack_complete cw doms2 s (backtrack_fuel cw) ∅ Hwf Hnc2 Hs)
    as (a & log & ->).
  - intros v Hv. destruct (Hdrawn v Hv) as (w & Hw & _). exists w.
    split; [done|]. destruct (Hin2 v w) as (D & HD & HwD); [done|].
    unfold drawn_ok. by rewrite HD.
  - apply map_empty_subseteq.
  - pose proof (unassigned_length cw ∅). unfold backtrack_fuel. lia.
  - cbn. eauto.
Qed.

Lemma drawn_ok_CrosswordCreator cw v w :
  v ∈ variables cw → w ∈ words cw → drawn_ok (CrosswordCreator cw) v w.
Proof.
  intros Hv Hw. unfold drawn_ok, CrosswordCreator.
  by rewrite (proj2 (lookup_gset_to_gmap_Some (words cw) (variables cw)
                       v (words cw)) (conj Hv eq_refl)).
Qed.

Lemma drawn_ok_shrinks doms' doms v w :
  shrinks doms' doms → drawn_ok doms' v w → drawn_ok doms v w.
Proof.
  intros Hs. unfold drawn_ok. specialize (Hs v).
  destruct (doms' !! v); [|done]. destruct (doms !! v); [|done]. by apply Hs.
Qed.

(** What an assignment returned by [solve] is made of. *)
Lemma solve_returns cw doms a doms2 log :
  solve cw doms = Ret (Some a, doms2, log) →
  dom a = variables cw ∧ consistent cw a = Ret true ∧
  shrinks doms2 doms ∧
  ∀ v w, a !! v = Some w → drawn_ok doms2 v w.
Proof.
  intros (doms1 & b & returned & a' & H1 & H2 & Hbt & Hr)%solve_Ret.
  destruct returned; [|done]. injection Hr as <-.
  pose proof (backtrack_success _ _ _ _ _ _ (consistent_empty cw) Hbt)
    as [Hc Hcons].
  rewrite assignment_complete_true in Hc.
  apply backtrack_extends in Hbt as [_ Hnew].
  assert (Hkeys : ∀ v w, a !! v = Some w →
            v ∈ variables cw ∧ drawn_ok doms2 v w).
  { intros v w Hw. by destruct (Hnew v w Hw) as [?%lookup_empty_Some|?]. }
  split_and!; [| done | | by intros v w (_ & ?)%Hkeys].
  - apply set_eq. intros v. rewrite elem_of_dom. split.
    + intros [w Hw]. by destruct (Hkeys v w Hw).
    + apply Hc.
  - apply enforce_node_consistency_spec in H1 as [H1 _].
    eapply shrinks_trans; [|done]. by eapply ac3_loop_shrinks.
Qed.

(** X8.  For a well-formed puzzle, [solve] on a freshly constructed creator
    returns an assignment exactly when the puzzle has a solution, that is,
    an assignment of words of the word list to all variables that meets the
    three conditions. *)
Theorem solve_decides cw :
  wf_crossword cw →
  ((∃ s, puzzle_solution cw s) ↔
   ∃ a doms log, solve cw (CrosswordCreator cw) = Ret (Some a, doms, log)).
Proof.
  intros Hwf. split.
  - intros (s & Hwords & Hs).
    apply (solve_complete_from cw _ s);
      [done | apply has_domains_CrosswordCreator | done |].
    intros v Hv. destruct (Hwords v Hv) as (w & Hw & Hin). exists w.
    split; [done|]. by apply drawn_ok_CrosswordCreator.
  - intros (a & doms & log & H). exists a.
    apply solve_returns in H as (Hkeys & Hcons & Hsh & Hdrawn). split.
    + intros v Hv. rewrite <- Hkeys in Hv. apply elem_of_dom in Hv as [w Hw].
      exists w. split; [done|].
      pose proof (drawn_ok_shrinks _ _ _ _ Hsh (Hdrawn v w Hw)) as Hd.
      unfold drawn_ok, CrosswordCreator in Hd.
      destruct (gset_to_gmap (words cw) (variables cw) !! v) as [D|] eqn:HD;
        [|done].
      by apply lookup_gset_to_gmap_Some in HD as [_ <-].
    + by apply consistent_characterised.
Qed.

Lemma solve_decides_witness :
  wf_crossword puzzle_ok ∧
  ((∃ s, puzzle_solution puzzle_ok s) ↔
   ∃ a doms log,
     solve puzzle_ok (CrosswordCreator puzzle_ok) = Ret (Some a, doms, log)).
Proof.
  assert (Hwf : wf_crossword puzzle_ok) by compute_done.
  split; [done|]. exact (solve_decides puzzle_ok Hwf).
Defined.

(** X9.  An assignment returned by [solve] has exactly the variables of the
    puzzle as keys, and each of its words is a candidate of its variable in
    the store the search ran on, hence in the store [solve] started from. *)
Theorem solve_uses_domains cw doms a doms2 log :
  solve cw doms = Ret (Some a, doms2, log) →
  dom a = variables cw ∧
  ∀ v w, a !! v = Some w → drawn_ok doms2 v w ∧ drawn_ok doms v w.
Proof.
  intros (Hkeys & _ & Hsh & Hdrawn)%solve_returns. split; [done|].
  intros v w Hw. split; [by apply Hdrawn|].
  eapply drawn_ok_shrinks; [done | by apply Hdrawn].
Qed.

Lemma solve_uses_domains_witness :
  solve puzzle_ok (CrosswordCreator puzzle_ok)
    = Ret (Some solution_ok, store_ok_ac3, log_ok) ∧
  dom solution_ok = variables puzzle_ok ∧
  ∀ v w, solution_ok !! v = Some w →
    drawn_ok store_ok_ac3 v w ∧ drawn_ok (CrosswordCreator puzzle_ok) v w.
Proof.
  assert (Hrun : solve puzzle_ok (CrosswordCreator puzzle_ok)
                 = Ret (Some solution_ok, store_ok_ac3, log_ok))
    by (vm_compute; reflexivity).
  split; [done|].
  exact (solve_uses_domains puzzle_ok _ solution_ok store_ok_ac3 log_ok Hrun).
Defined.

(** ** Node consistency, exactly *)

Lemma node_loop_fixed vars doms :
  (∀ v, v ∈ vars → ∃ D, doms !! v = Some D ∧ node_filter v D = D) →
  node_loop vars doms = Ret doms.
Proof.
  induction vars as [|var rest IH]; intros H; simpl; [done|].
  destruct (H var) as (D & HD & Hfix); [by left|].
  apply dom_get_Ret in HD as HD'. rewrite HD'. simpl.
  rewrite Hfix, insert_id by done. apply IH. intros v ?. apply H. by right.
Qed.

Lemma node_filter_idemp v D : node_filter v (node_filter v D) = node_filter v D.
Proof.
  apply set_eq. intros w. unfold node_filter. rewrite !elem_of_filter. tauto.
Qed.

Lemma node_loop_KeyError vars doms v :
  v ∈ vars → doms !! v = None → node_loop vars doms = Exn KeyError.
Proof.
  revert doms. induction vars as [|var rest IH]; intros doms Hv Hnone; simpl.
  { by apply elem_of_nil in Hv. }
  unfold dom_get at 1. destruct (doms !! var) as [D|] eqn:HD; [|done]. simpl.
  apply elem_of_cons in Hv as [->|Hv]; [congruence|].
  apply IH; [done|]. rewrite lookup_insert_ne; [done|]. intros ->. congruence.
Qed.

(** X10.  When [enforce_node_consistency] returns, the domain of every
    variable of the puzzle holds exactly the words it held before that have
    the length of the variable, every other entry of the store is as it
    was, and running it again changes nothing. *)
Theorem enforce_node_consistency_exact cw doms doms' :
  enforce_node_consistency cw doms = Ret doms' →
  (∀ v, v ∈ variables cw →
     ∃ D, doms !! v = Some D ∧ doms' !! v = Some (node_filter v D) ∧
          ∀ w, w ∈ node_filter v D ↔
               w ∈ D ∧ String.length w = var_length v) ∧
  (∀ v, v ∉ variables cw → doms' !! v = doms !! v) ∧
  enforce_node_consistency cw doms' = Ret doms'.
Proof.
  intros H. pose proof (node_loop_spec _ _ _ (NoDup_elements _) H) as Hspec.
  split_and!.
  - intros v Hv. destruct (Hspec v) as [Hin _].
    destruct Hin as (D & HD & HD'); [by apply elem_of_elements|].
    exists D. split_and!; [done | done |]. intros w. unfold node_filter.
    rewrite elem_of_filter. tauto.
  - intros v Hv. destruct (Hspec v) as [_ Hout]. apply Hout.
    by rewrite elem_of_elements.
  - apply node_loop_fixed. intros v Hv. destruct (Hspec v) as [Hin _].
    destruct (Hin Hv) as (D & _ & HD'). eexists. split; [done|].
    apply node_filter_idemp.
Qed.

Lemma enforce_node_consistency_exact_witness :
  let cw := puzzle_ok in
  let doms := CrosswordCreator puzzle_ok in
  let doms' := store_ok in
  enforce_node_consistency cw doms = Ret doms' ∧
  (∀ v, v ∈ variables cw →
     ∃ D, doms !! v = Some D ∧ doms' !! v = Some (node_filter v D) ∧
          ∀ w, w ∈ node_filter v D ↔
               w ∈ D ∧ String.length w = var_length v) ∧
  (∀ v, v ∉ variables cw → doms' !! v = doms !! v) ∧
  enforce_node_consistency cw doms' = Ret doms'.
Proof.
  intros cw doms doms'.
  assert (Hrun : enforce_node_consistency cw doms = Ret doms')
    by (vm_compute; reflexivity).
  split; [done|]. exact (enforce_node_consistency_exact cw doms doms' Hrun).
Defined.

(** X11.  [enforce_node_consistency] returns exactly when every variable of
    the puzzle has a domain in the store; otherwise it raises [KeyError]. *)
Theorem enforce_node_consistency_outcome cw doms :
  match enforce_node_consistency cw doms with
  | Ret _ => has_domains cw doms
  | Exn e => e = KeyError ∧ ¬ has_domains cw doms
  | OutOfFuel => False
  end.
Proof.
  destruct (decide (has_domains cw doms)) as [Hdom|Hn].
  - destruct (node_loop_safe (elements (variables cw)) doms) as [doms' H].
    { intros v Hv%elem_of_elements. by apply Hdom. }
    unfold enforce_node_consistency. by rewrite H.
  - apply not_set_Forall_Exists in Hn as (v & Hv & Hnone); [|apply _].
    simpl in Hnone. apply eq_None_not_Some in Hnone.
    unfold enforce_node_consistency.
    rewrite (node_loop_KeyError _ doms v); [| by apply elem_of_elements | done].
    split; [done|]. intros Hdom. destruct (Hdom v Hv) as [D HD]. congruence.
Qed.

(** ** The two heuristics *)

(** X12.  With a domain for every variable of the puzzle,
    [select_unassigned_variable] returns an unassigned variable of the
    puzzle whose domain is no larger than that of any other unassigned
    variable; when the assignment is complete it raises [ValueError]. *)
Theorem select_unassigned_variable_outcome cw doms a :
  has_domains cw doms →
  match select_unassigned_variable cw doms a with
  | Ret var =>
      var ∈ variables cw ∧ a !! var = None ∧
      ∃ D, doms !! var = Some D ∧
        ∀ v D', v ∈ variables cw → a !! v = None → doms !! v = Some D' →
          size D ≤ size D'
  | Exn e => e = ValueError ∧ assignment_complete cw a = true
  | OutOfFuel => False
  end.
Proof.
  intros Hdom. destruct (assignment_complete cw a) eqn:Hc.
  - assert (Hnil : unassigned cw a = []).
    { rewrite assignment_complete_true in Hc.
      destruct (unassigned cw a) as [|v l] eqn:Hu; [done|].
      assert (Hv : v ∈ unassigned cw a) by (rewrite Hu; by left).
      apply elem_of_unassigned in Hv as [Hv Hnone].
      destruct (Hc v Hv) as [w Hw]. congruence. }
    unfold select_unassigned_variable. rewrite Hnil. simpl. done.
  - apply assignment_incomplete in Hc as (v & Hv & Hnone).
    destruct (select_unassigned_variable_safe cw doms a v Hdom Hv Hnone)
      as [var Hsel].
    rewrite Hsel. by apply select_unassigned_variable_Ret in Hsel.
Qed.

Lemma select_unassigned_variable_outcome_witness :
  has_domains puzzle_stuck store_stuck_ac3 ∧
  match select_unassigned_variable puzzle_stuck store_stuck_ac3 ∅ with
  | Ret var =>
      var ∈ variables puzzle_stuck ∧ (∅ : assignment) !! var = None ∧
      ∃ D, store_stuck_ac3 !! var = Some D ∧
        ∀ v D', v ∈ variables puzzle_stuck → (∅ : assignment) !! v = None →
          store_stuck_ac3 !! v = Some D' → size D ≤ size D'
  | Exn e => e = ValueError ∧ assignment_complete puzzle_stuck ∅ = true
  | OutOfFuel => False
  end.
Proof.
  assert (Hdom : has_domains puzzle_stuck store_stuck_ac3) by compute_done.
  split; [done|].
  exact (select_unassigned_variable_outcome puzzle_stuck store_stuck_ac3 ∅
           Hdom).
Defined.

Lemma lcv_key_Ret doms word ns k :
  lcv_key doms word ns = Ret k →
  k = List.length (filter (λ nb, drawn_ok doms nb word) ns).
Proof.
  revert k. induction ns as [|nb ns IH]; intros k H; simpl in H.
  { by inversion H. }
  run_inv H. run_inv H. inversion H; subst. apply dom_get_Ret in Hr.
  rewrite (IH _ Hr0). destruct (decide (word ∈ r)) as [Hin|Hn].
  - rewrite filter_cons_True; [done|]. unfold drawn_ok. by rewrite Hr.
  - rewrite filter_cons_False; [done|]. unfold drawn_ok. by rewrite Hr.
Qed.

Lemma keyed_keys doms ns ws l :
  keyed doms ns ws = Ret l →
  Forall (λ p, p.1 = List.length (filter (λ nb, drawn_ok doms nb p.2) ns)) l.
Proof.
  revert l. induction ws as [|w ws IH]; intros l H; simpl in H.
  { inversion H. constructor. }
  run_inv H. run_inv H. inversion H; subst. constructor; [|by apply IH].
  simpl. by apply lcv_key_Ret.
Qed.

Lemma insert_by_key_sorted p l :
  StronglySorted (λ q r : nat * string, q.1 ≤ r.1) l →
  StronglySorted (λ q r : nat * string, q.1 ≤ r.1) (insert_by_key p l).
Proof.
  induction 1 as [|q l Hs IH Hq]; simpl.
  { repeat constructor. }
  destruct (decide (q.1 < p.1)).
  - constructor; [done|]. rewrite insert_by_key_perm.
    constructor; [lia | done].
  - constructor; [by constructor|]. constructor; [lia|].
    eapply Forall_impl; [exact Hq|]. simpl. intros r ?. lia.
Qed.

Lemma sort_by_key_sorted l :
  StronglySorted (λ q r : nat * string, q.1 ≤ r.1) (foldr insert_by_key [] l).
Proof.
  induction l as [|p l IH]; simpl; [constructor|].
  by apply insert_by_key_sorted.
Qed.

Lemma sorted_by_count (count : string → nat) (l : list (nat * string)) :
  Forall (λ p, p.1 = count p.2) l →
  StronglySorted (λ q r : nat * string, q.1 ≤ r.1) l →
  StronglySorted (λ w1 w2, count w1 ≤ count w2) (snd <$> l).
Proof.
  intros Hkeys Hs. induction Hs as [|q l Hs IH Hq]; simpl; [constructor|].
  apply Forall_cons in Hkeys as [Hkq Hkeys]. constructor; [by apply IH|].
  rewrite Forall_fmap. rewrite Forall_forall in Hq, Hkeys |- *.
  intros r Hr. simpl. rewrite <- Hkq, <- (Hkeys r Hr). by apply Hq.
Qed.

(** X13.  When [order_domain_values] returns, the list holds every word of
    the domain of [var] exactly once, in ascending order of the number of
    neighbors of [var] whose domain contains the word; the assignment
    passed in plays no part. *)
Theorem order_domain_values_sorted cw doms var a values :
  order_domain_values cw doms var a = Ret values →
  ∃ D, doms !! var = Some D ∧ values ≡ₚ elements D ∧ NoDup values ∧
    StronglySorted
      (λ w1 w2, lcv_count cw doms var w1 ≤ lcv_count cw doms var w2) values ∧
    ∀ a', order_domain_values cw doms var a' = Ret values.
Proof.
  intros H. pose proof (order_domain_values_Ret _ _ _ _ _ H) as (D & HD & Hp).
  exists D. split_and!; [done | done | | | by intros a'].
  { rewrite Hp. apply NoDup_elements. }
  unfold order_domain_values in H. run_inv H. run_inv H. inversion H; subst.
  unfold sorted_by_key. apply (sorted_by_count (lcv_count cw doms var)).
  - pose proof (keyed_keys _ _ _ _ Hr0) as Hk.
    rewrite Forall_forall in Hk |- *. intros p Hin. apply Hk.
    revert Hin. clear. induction r0 as [|q l IH]; simpl; [done|].
    rewrite insert_by_key_perm. intros [->|?]%elem_of_cons; [by left|].
    right. by apply IH.
  - apply sort_by_key_sorted.
Qed.

Lemma order_domain_values_sorted_witness :
  order_domain_values puzzle_ok store_mixed across0 ∅ = Ret order_mixed ∧
  ∃ D, store_mixed !! across0 = Some D ∧ order_mixed ≡ₚ elements D ∧
    NoDup order_mixed ∧
    StronglySorted
      (λ w1 w2, lcv_count puzzle_ok store_mixed across0 w1
                ≤ lcv_count puzzle_ok store_mixed across0 w2) order_mixed ∧
    ∀ a', order_domain_values puzzle_ok store_mixed across0 a'
          = Ret order_mixed.
Proof.
  assert (Hrun : order_domain_values puzzle_ok store_mixed across0 ∅
                 = Ret order_mixed) by (vm_compute; reflexivity).
  split; [done|].
  exact (order_domain_values_sorted puzzle_ok store_mixed across0 ∅
           order_mixed Hrun).
Defined.

(** ** What a successful search keeps *)

(** X14.  When [backtrack(assignment)] returns the dict, every entry the
    dict had at the start is still there unchanged, and every entry added
    belongs to a variable of the puzzle and holds a word of that variable's
    domain. *)
Theorem backtrack_keeps_entries cw doms fuel a a' log :
  backtrack cw doms fuel a = Ret (true, a', log) →
  a ⊆ a' ∧
  ∀ v w, a' !! v = Some w → a !! v = Some w ∨
    (v ∈ variables cw ∧ drawn_ok doms v w).
Proof. apply backtrack_extends. Qed.

Lemma backtrack_keeps_entries_witness :
  backtrack puzzle_ok store_ok_ac3 3 partial_ok
    = Ret (true, solution_ok, log_partial_ok) ∧
  partial_ok ⊆ solution_ok ∧
  ∀ v w, solution_ok !! v = Some w → partial_ok !! v = Some w ∨
    (v ∈ variables puzzle_ok ∧ drawn_ok store_ok_ac3 v w).
Proof.
  assert (Hrun : backtrack puzzle_ok store_ok_ac3 3 partial_ok
                 = Ret (true, solution_ok, log_partial_ok))
    by (vm_compute; reflexivity).
  split; [done|].
  exact (backtrack_keeps_entries puzzle_ok store_ok_ac3 3 partial_ok
           solution_ok log_partial_ok Hrun).
Defined.

(** ** letter_grid *)

Lemma get_Some_lt word k c :
  String.get k word = Some c → k < String.length word.
Proof.
  revert k. induction word as [|c0 word IH]; intros [|k] H; simpl in *;
    try done; try lia.
  apply IH in H. lia.
Qed.

Lemma var_cell_inj var k1 k2 : var_cell var k1 = var_cell var k2 → k1 = k2.
Proof.
  unfold var_cell. intros [= H1 H2]. destruct (var_direction var).
  - rewrite !decide_True in H2 by done. lia.
  - rewrite !decide_True in H1 by done. lia.
Qed.

Lemma grid_get_empty height width p :
  within height width p → grid_get (empty_grid height width) p = Some None.
Proof.
  intros [H1 H2]. unfold grid_get, empty_grid.
  rewrite lookup_replicate_2 by done. simpl. by rewrite lookup_replicate_2.
Qed.

Lemma empty_grid_dims height width :
  grid_dims height width (empty_grid height width).
Proof.
  split; [apply length_replicate|]. apply Forall_replicate, length_replicate.
Qed.

Lemma grid_get_within height width g p :
  grid_dims height width g → is_Some (grid_get g p) ↔ within height width p.
Proof.
  intros [Hh Hw]. unfold grid_get, within. split.
  - intros [c H]. destruct (g !! p.1) as [row|] eqn:Hrow; [|done].
    simpl in H. apply lookup_lt_Some in Hrow as Hlt, H.
    rewrite (Forall_lookup_1 _ _ _ _ Hw Hrow) in H. lia.
  - intros [H1 H2]. destruct (lookup_lt_is_Some_2 g p.1) as [row Hrow]; [lia|].
    rewrite Hrow. simpl. apply lookup_lt_is_Some_2.
    rewrite (Forall_lookup_1 _ _ _ _ Hw Hrow). lia.
Qed.

Lemma grid_set_Ret height width g p c g' :
  grid_dims height width g → grid_set g p c = Ret g' →
  within height width p ∧ grid_dims height width g' ∧
  grid_get g' p = Some (Some c) ∧
  ∀ q, q ≠ p → grid_get g' q = grid_get g q.
Proof.
  intros [Hh Hw]. unfold grid_set.
  destruct (g !! p.1) as [row|] eqn:Hrow; [|done].
  destruct (decide (p.2 < List.length row)) as [Hlt|]; [|done].
  intros [= <-]. apply lookup_lt_Some in Hrow as Hlt1.
  pose proof (Forall_lookup_1 _ _ _ _ Hw Hrow) as Hlen. simpl in Hlen.
  split_and!.
  - split; lia.
  - split; [by rewrite length_insert|]. apply Forall_insert; [done|].
    by rewrite length_insert.
  - unfold grid_get. rewrite list_lookup_insert_eq by done. simpl.
    by rewrite list_lookup_insert_eq.
  - intros [q1 q2] Hq. unfold grid_get. simpl.
    destruct (decide (p.1 = q1)) as [<-|Hne].
    + rewrite list_lookup_insert_eq by done. rewrite Hrow. simpl.
      rewrite list_lookup_insert_ne; [done|]. intros <-. apply Hq.
      by destruct p.
    + by rewrite list_lookup_insert_ne.
Qed.

Lemma grid_set_safe height width g p c :
  grid_dims height width g → within height width p →
  ∃ g', grid_set g p c = Ret g'.
Proof.
  intros [Hh Hw] [H1 H2]. unfold grid_set.
  destruct (lookup_lt_is_Some_2 g p.1) as [row Hrow]; [lia|].
  rewrite Hrow. pose proof (Forall_lookup_1 _ _ _ _ Hw Hrow) as Hlen.
  simpl in Hlen. rewrite decide_True by lia. eauto.
Qed.

Lemma grid_set_Exn g p c e : grid_set g p c = Exn e → e = IndexError.
Proof.
  unfold grid_set. destruct (g !! p.1) as [row|]; [|congruence].
  destruct (decide (p.2 < List.length row)); congruence.
Qed.

Lemma grid_set_not_fuel g p c : grid_set g p c ≠ OutOfFuel.
Proof.
  unfold grid_set. destruct (g !! p.1) as [row|]; [|done].
  by destruct (decide (p.2 < List.length row)).
Qed.

Lemma str_index_Exn word k e : str_index word k = Exn e → e = IndexError.
Proof. unfold str_index. destruct (String.get k word); congruence. Qed.

Section write_word.
Context (height width : nat) (var : CwVariable) (word : string).

Lemma write_word_Ret ks g g' :
  grid_dims height width g → write_word var word ks g = Ret g' →
  grid_dims height width g' ∧
  (∀ k, k ∈ ks → within height width (var_cell var k)) ∧
  (∀ q, (∀ k, k ∈ ks → var_cell var k ≠ q) → grid_get g' q = grid_get g q) ∧
  (∀ k c, k ∈ ks → String.get k word = Some c →
     grid_get g' (var_cell var k) = Some (Some c)).
Proof.
  revert g. induction ks as [|k0 ks IH]; intros g Hdims H; simpl in H.
  { inversion H; subst. split_and!; [done | | done |].
    - by intros ? ?%elem_of_nil.
    - by intros ? ? ?%elem_of_nil. }
  run_inv H. rename r into c0. apply str_index_Ret in Hr.
  run_inv H. rename r into g1.
  destruct (grid_set_Ret _ _ _ _ _ _ Hdims Hr0) as (Hin & Hdims1 & Hset & Hoth).
  destruct (IH _ Hdims1 H) as (Hdims' & Hks & Hfar & Hread).
  split_and!; [done | | |].
  - intros k [->|?]%elem_of_cons; [done | by apply Hks].
  - intros q Hq. rewrite Hfar.
    + apply Hoth. intros ->. by apply (Hq k0); [left|].
    + intros k ?. apply Hq. by right.
  - intros k c Hk Hc. destruct (decide (k ∈ ks)) as [Hin'|Hout].
    { by apply Hread. }
    apply elem_of_cons in Hk as [->|?]; [|done].
    rewrite Hfar.
    + rewrite Hset. congruence.
    + intros k Hk Heq. apply var_cell_inj in Heq. by subst k.
Qed.

Lemma write_word_safe ks g :
  grid_dims height width g →
  (∀ k, k ∈ ks →
     k < String.length word ∧ within height width (var_cell var k)) →
  ∃ g', write_word var word ks g = Ret g'.
Proof.
  revert g. induction ks as [|k0 ks IH]; intros g Hdims Hks; simpl; [eauto|].
  destruct (Hks k0) as [Hlt Hin]; [by left|].
  destruct (get_in_range word k0 Hlt) as [c Hc].
  apply str_index_Ret in Hc. rewrite Hc. simpl.
  destruct (grid_set_safe _ _ g (var_cell var k0) c Hdims Hin) as [g1 Hg1].
  rewrite Hg1. simpl.
  destruct (grid_set_Ret _ _ _ _ _ _ Hdims Hg1) as (_ & Hdims1 & _).
  apply IH; [done|]. intros k ?. apply Hks. by right.
Qed.

Lemma write_word_other ks g :
  match write_word var word ks g with
  | Ret _ => True
  | Exn e => e = IndexError
  | OutOfFuel => False
  end.
Proof.
  revert g. induction ks as [|k0 ks IH]; intros g; simpl; [done|].
  destruct (str_index word k0) as [c|e|] eqn:Hc; simpl.
  - destruct (grid_set g (var_cell var k0) c) as [g1|e|] eqn:Hg; simpl.
    + apply IH.
    + by apply grid_set_Exn in Hg.
    + by apply grid_set_not_fuel in Hg.
  - by apply str_index_Exn in Hc.
  - by apply str_index_not_fuel in Hc.
Qed.

End write_word.

Lemma letter_grid_loop_Ret height width items g g' :
  grid_dims height width g → letter_grid_loop items g = Ret g' →
  grid_dims height width g' ∧
  (∀ var word k, (var, word) ∈ items → k < String.length word →
     within height width (var_cell var k)) ∧
  ∀ q, ((∀ var word c, (var, word) ∈ items → ¬ covers var word q c) ∧
        grid_get g' q = grid_get g q) ∨
       (∃ var word c, (var, word) ∈ items ∧ covers var word q c ∧
          grid_get g' q = Some (Some c)).
Proof.
  revert g. induction items as [|[var word] rest IH]; intros g Hdims H;
    simpl in H.
  { inversion H; subst. split_and!; [done | by intros ??? ?%elem_of_nil |].
    intros q. left. split; [by intros ??? ?%elem_of_nil | done]. }
  run_inv H. rename r into g1.
  destruct (write_word_Ret _ _ _ _ _ _ _ Hdims Hr)
    as (Hdims1 & Hks & Hfar & Hread).
  destruct (IH _ Hdims1 H) as (Hdims' & Hfit & Hcells).
  split_and!; [done | |].
  - intros v w k [[= -> ->]|?]%elem_of_cons Hk; [|by eapply Hfit].
    apply Hks. apply elem_of_seq. lia.
  - intros q. destruct (Hcells q) as [[Hnone Hsame]|(v & w & c & Hin & Hc & Hg)].
    2:{ right. exists v, w, c. split; [by right | done]. }
    destruct (decide (Exists (λ k, var_cell var k = q)
                        (seq 0 (String.length word))))
      as [(k & Hk & Hq)%Exists_exists|Hnex].
    + right. apply elem_of_seq in Hk.
      destruct (get_in_range word k) as [c Hc]; [lia|].
      exists var, word, c. split_and!; [by left | by exists k |].
      rewrite Hsame, <- Hq. apply Hread; [apply elem_of_seq; lia | done].
    + assert (Hno : ∀ k, k ∈ seq 0 (String.length word) →
                var_cell var k ≠ q).
      { intros k Hk Hq. apply Hnex, Exists_exists. eauto. }
      left. split.
      * intros v w c [[= -> ->]|?]%elem_of_cons; [|by apply Hnone].
        intros (k & Hc & Hq). apply (Hno k); [|done].
        apply get_Some_lt in Hc. apply elem_of_seq. lia.
      * rewrite Hsame. apply Hfar. intros k Hk Hq. by apply (Hno k).
Qed.

Lemma letter_grid_loop_safe height width items g :
  grid_dims height width g →
  (∀ var word k, (var, word) ∈ items → k < String.length word →
     within height width (var_cell var k)) →
  ∃ g', letter_grid_loop items g = Ret g'.
Proof.
  revert g. induction items as [|[var word] rest IH]; intros g Hdims Hfit;
    simpl; [eauto|].
  destruct (write_word_safe height width var word
              (seq 0 (String.length word)) g Hdims) as [g1 Hg1].
  { intros k Hk%elem_of_seq. split; [lia|]. apply (Hfit var word); [by left|].
    lia. }
  rewrite Hg1. simpl.
  destruct (write_word_Ret _ _ _ _ _ _ _ Hdims Hg1) as (Hdims1 & _).
  apply IH; [done|]. intros v w k ?. apply Hfit. by right.
Qed.

Lemma letter_grid_loop_other items g :
  match letter_grid_loop items g with
  | Ret _ => True
  | Exn e => e = IndexError
  | OutOfFuel => False
  end.
Proof.
  revert g. induction items as [|[var word] rest IH]; intros g; simpl; [done|].
  pose proof (write_word_other var word (seq 0 (String.length word)) g) as Hw.
  destruct (write_word var word (seq 0 (String.length word)) g); simpl;
    [apply IH | done | done].
Qed.

Lemma fits_items height width a items :
  items ≡ₚ map_to_list a →
  fits height width a ↔
  ∀ var word k, (var, word) ∈ items → k < String.length word →
    within height width (var_cell var k).
Proof.
  intros Hp. unfold fits. split.
  - intros H var word k Hin. apply H. apply elem_of_map_to_list.
    by rewrite <- Hp.
  - intros H var word k Ha. apply H. rewrite Hp.
    by apply elem_of_map_to_list.
Qed.

(** X15.  [letter_grid], whatever the order in which the entries of the
    assignment are visited: it returns a grid of [height] rows of [width]
    cells when every character of every assigned word falls inside the
    grid, and raises [IndexError] otherwise. *)
Theorem letter_grid_outcome height width a items :
  items ≡ₚ map_to_list a →
  match letter_grid_loop items (empty_grid height width) with
  | Ret g => fits height width a ∧ grid_dims height width g
  | Exn e => e = IndexError ∧ ¬ fits height width a
  | OutOfFuel => False
  end.
Proof.
  intros Hp. pose proof (letter_grid_loop_other items
                           (empty_grid height width)) as Hother.
  destruct (letter_grid_loop items (empty_grid height width)) as [g|e|] eqn:H;
    [| |done].
  - destruct (letter_grid_loop_Ret _ _ _ _ _ (empty_grid_dims _ _) H)
      as (Hdims & Hfit & _).
    split; [|done]. exact (proj2 (fits_items _ _ _ items Hp) Hfit).
  - split; [done|]. intros Hfit.
    destruct (letter_grid_loop_safe height width items
                (empty_grid height width) (empty_grid_dims _ _)
                (proj1 (fits_items height width a items Hp) Hfit))
      as [g' Hg']. congruence.
Qed.

Lemma letter_grid_outcome_witness :
  map_to_list solution_ok ≡ₚ map_to_list solution_ok ∧
  letter_grid 3 3 solution_ok = Ret grid_ok ∧
  match letter_grid_loop (map_to_list solution_ok) (empty_grid 3 3) with
  | Ret g => fits 3 3 solution_ok ∧ grid_dims 3 3 g
  | Exn e => e = IndexError ∧ ¬ fits 3 3 solution_ok
  | OutOfFuel => False
  end.
Proof.
  assert (Hp : map_to_list solution_ok ≡ₚ map_to_list solution_ok)
    by reflexivity.
  split_and!; [done | vm_compute; reflexivity |].
  exact (letter_grid_outcome 3 3 solution_ok (map_to_list solution_ok) Hp).
Defined.

Lemma letter_grid_loop_cells height width a items g :
  items ≡ₚ map_to_list a →
  letter_grid_loop items (empty_grid height width) = Ret g →
  ∀ q, within height width q →
    (grid_get g q = Some None ∧
     ∀ var word c, a !! var = Some word → ¬ covers var word q c) ∨
    (∃ var word c, a !! var = Some word ∧ covers var word q c ∧
       grid_get g q = Some (Some c)).
Proof.
  intros Hp H q Hq.
  destruct (letter_grid_loop_Ret _ _ _ _ _ (empty_grid_dims _ _) H)
    as (_ & _ & Hcells).
  destruct (Hcells q) as [[Hnone Hsame]|(v & w & c & Hin & Hc & Hg)].
  - left. rewrite Hsame. split; [by apply grid_get_empty|].
    intros var word c Ha. apply Hnone. rewrite Hp.
    by apply elem_of_map_to_list.
  - right. exists v, w, c. split; [|done]. apply elem_of_map_to_list.
    by rewrite <- Hp.
Qed.

Lemma letter_grid_loop_reads_back height width a items g :
  items ≡ₚ map_to_list a →
  letter_grid_loop items (empty_grid height width) = Ret g →
  (∀ x y wx wy cx cy q, x ≠ y → a !! x = Some wx → a !! y = Some wy →
     covers x wx q cx → covers y wy q cy → cx = cy) →
  ∀ var word k c, a !! var = Some word → String.get k word = Some c →
    grid_get g (var_cell var k) = Some (Some c).
Proof.
  intros Hp H Hagree var word k c Ha Hc.
  pose proof (letter_grid_loop_Ret _ _ _ _ _ (empty_grid_dims _ _) H)
    as (_ & Hfit & _).
  assert (Hq : within height width (var_cell var k)).
  { apply (Hfit var word); [|by eapply get_Some_lt]. rewrite Hp.
    by apply elem_of_map_to_list. }
  destruct (letter_grid_loop_cells _ _ _ _ _ Hp H _ Hq)
    as [[_ Hnone]|(v & w & c' & Hv & Hcov & Hg)].
  { destruct (Hnone var word c Ha). by exists k. }
  rewrite Hg. do 2 f_equal. destruct (decide (v = var)) as [->|Hne].
  - rewrite Ha in Hv. injection Hv as <-. destruct Hcov as (k' & Hc' & Hk').
    apply var_cell_inj in Hk'. subst k'. congruence.
  - eapply (Hagree v var); [done | done | done | done |]. by exists k.
Qed.

(** X16.  In the grid [letter_grid] returns, whatever the order in which
    the entries are visited, a cell holds either [None], and then no
    assigned word passes through it, or a character that some assigned word
    puts there.  When the assigned words agree wherever two of them share a
    cell, every word can be read back from the cells of its variable. *)
Theorem letter_grid_cells height width a items g :
  items ≡ₚ map_to_list a →
  letter_grid_loop items (empty_grid height width) = Ret g →
  (∀ q, within height width q →
     (grid_get g q = Some None ∧
      ∀ var word c, a !! var = Some word → ¬ covers var word q c) ∨
     (∃ var word c, a !! var = Some word ∧ covers var word q c ∧
        grid_get g q = Some (Some c))) ∧
  ((∀ x y wx wy cx cy q, x ≠ y → a !! x = Some wx → a !! y = Some wy →
      covers x wx q cx → covers y wy q cy → cx = cy) →
   ∀ var word k c, a !! var = Some word → String.get k word = Some c →
     grid_get g (var_cell var k) = Some (Some c)).
Proof.
  intros Hp H. split.
  - by eapply letter_grid_loop_cells.
  - by eapply letter_grid_loop_reads_back.
Qed.

Lemma letter_grid_cells_witness :
  let a := solution_ok in
  let g := grid_ok in
  map_to_list a ≡ₚ map_to_list a ∧
  letter_grid_loop (map_to_list a) (empty_grid 3 3) = Ret g ∧
  (∀ q, within 3 3 q →
     (grid_get g q = Some None ∧
      ∀ var word c, a !! var = Some word → ¬ covers var word q c) ∨
     (∃ var word c, a !! var = Some word ∧ covers var word q c ∧
        grid_get g q = Some (Some c))) ∧
  ((∀ x y wx wy cx cy q, x ≠ y → a !! x = Some wx → a !! y = Some wy →
      covers x wx q cx → covers y wy q cy → cx = cy) →
   ∀ var word k c, a !! var = Some word → String.get k word = Some c →
     grid_get g (var_cell var k) = Some (Some c)).
Proof.
  intros a g.
  assert (Hp : map_to_list a ≡ₚ map_to_list a) by reflexivity.
  assert (Hrun : letter_grid_loop (map_to_list a) (empty_grid 3 3) = Ret g)
    by (vm_compute; reflexivity).
  split; [done|]. split; [done|].
  exact (letter_grid_cells 3 3 a (map_to_list a) g Hp Hrun).
Defined.

(** X17.  For a well-formed puzzle whose overlap map misses no crossing:
    when [solve] returns an assignment and [letter_grid] returns a grid for
    it, the word of every variable can be read from the grid along the
    cells of the variable. *)
Theorem solution_grid_reads_back cw doms a doms2 log height width items g :
  wf_crossword cw → overlaps_cover cw →
  solve cw doms = Ret (Some a, doms2, log) →
  items ≡ₚ map_to_list a →
  letter_grid_loop items (empty_grid height width) = Ret g →
  ∀ var, var ∈ variables cw →
    ∃ word, a !! var = Some word ∧
      String.length word = var_length var ∧
      ∀ k c, String.get k word = Some c →
        grid_get g (var_cell var k) = Some (Some c).
Proof.
  intros Hwf Hcover Hsolve Hp Hgrid var Hvar.
  apply solve_returns in Hsolve as (Hkeys & Hcons & _ & _).
  apply consistent_characterised in Hcons as (Hlen & Hagree & _); [|done].
  assert (Hin : ∀ v w, a !! v = Some w → v ∈ variables cw).
  { intros v w Hv. rewrite <- Hkeys. apply elem_of_dom. eauto. }
  rewrite <- Hkeys in Hvar. apply elem_of_dom in Hvar as [word Ha].
  exists word. split_and!; [done | exact (Hlen var word (Hin _ _ Ha) Ha) |].
  intros k c Hc.
  eapply letter_grid_loop_reads_back; [done | done | | done | done].
  intros x y wx wy cx cy q Hne Hx Hy (k1 & Hc1 & Hq1) (k2 & Hc2 & Hq2).
  pose proof (Hin _ _ Hx) as Hxv. pose proof (Hin _ _ Hy) as Hyv.
  assert (Hov : overlaps cw !! (x, y) = Some (k1, k2)).
  { apply Hcover; [done | done | done | | | congruence].
    - rewrite <- (Hlen x wx Hxv Hx). by eapply get_Some_lt.
    - rewrite <- (Hlen y wy Hyv Hy). by eapply get_Some_lt. }
  destruct (Hagree x y wx wy k1 k2 Hx Hy Hov) as (c' & Hc1' & Hc2').
  congruence.
Qed.

Lemma solution_grid_reads_back_witness :
  let cw := puzzle_ok in
  let a := solution_ok in
  wf_crossword cw ∧ overlaps_cover cw ∧
  solve cw (CrosswordCreator cw) = Ret (Some a, store_ok_ac3, log_ok) ∧
  map_to_list a ≡ₚ map_to_list a ∧
  letter_grid_loop (map_to_list a) (empty_grid 3 3) = Ret grid_ok ∧
  ∀ var, var ∈ variables cw →
    ∃ word, a !! var = Some word ∧
      String.length word = var_length var ∧
      ∀ k c, String.get k word = Some c →
        grid_get grid_ok (var_cell var k) = Some (Some c).
Proof.
  intros cw a.
  assert (Hwf : wf_crossword cw) by compute_done.
  assert (Hcover : overlaps_cover cw) by compute_done.
  assert (Hsolve : solve cw (CrosswordCreator cw)
                   = Ret (Some a, store_ok_ac3, log_ok))
    by (vm_compute; reflexivity).
  assert (Hp : map_to_list a ≡ₚ map_to_list a) by reflexivity.
  assert (Hgrid : letter_grid_loop (map_to_list a) (empty_grid 3 3)
                  = Ret grid_ok) by (vm_compute; reflexivity).
  split_and!; [done | done | done | done | done |].
  exact (solution_grid_reads_back cw (CrosswordCreator cw) a store_ok_ac3
           log_ok 3 3 (map_to_list a) grid_ok Hwf Hcover Hsolve Hp Hgrid).
Defined.

(** ** Failure means there is no solution *)

(** X18.  For a well-formed puzzle, when [ac3()] on the full arc set returns
    [False], no assignment that meets the three conditions gives every
    variable a word of its domain in the store the run started from. *)
Theorem ac3_false_unsolvable cw doms doms' s :
  wf_crossword cw → ac3 cw doms None = Ret (false, doms') →
  consistent_spec cw s →
  ¬ ∀ v, v ∈ variables cw → ∃ w, s !! v = Some w ∧ drawn_ok doms v w.
Proof.
  intros Hwf H Hs Hdrawn.
  pose (P := λ x w, x ∈ variables cw ∧ s !! x = Some w).
  assert (Hself : self_supporting cw P).
  { apply solution_self_supporting; [done | done |].
    intros v Hv. destruct (Hdrawn v Hv) as (w & -> & _). eauto. }
  assert (Hin : inside P doms).
  { intros x w [Hx Hw]. destruct (Hdrawn x Hx) as (w' & Hw' & Hd).
    rewrite Hw in Hw'. injection Hw' as <-. unfold drawn_ok in Hd.
    destruct (doms !! x) as [D|]; [eauto | done]. }
  pose proof (ac3_loop_keeps _ _ _ _ _ _ _ Hwf Hself Hin H) as Hin'.
  apply ac3_loop_false in H as (x & Hx & Hempty).
  assert (Hxv : x ∈ variables cw).
  { destruct Hx as [?|(y & ?%all_arcs_sources)]; done. }
  destruct (Hdrawn x Hxv) as (w & Hw & _).
  destruct (Hin' x w) as (D & HD & HwD); [done|].
  rewrite Hempty in HD. injection HD as <-. by apply elem_of_empty in HwD.
Qed.

Lemma ac3_false_unsolvable_witness :
  wf_crossword puzzle_stuck ∧
  ac3 puzzle_stuck store_stuck None = Ret (false, store_stuck_ac3) ∧
  consistent_spec puzzle_stuck ∅ ∧
  ¬ ∀ v, v ∈ variables puzzle_stuck →
      ∃ w, (∅ : assignment) !! v = Some w ∧ drawn_ok store_stuck v w.
Proof.
  assert (Hwf : wf_crossword puzzle_stuck) by compute_done.
  assert (Hrun : ac3 puzzle_stuck store_stuck None
                 = Ret (false, store_stuck_ac3)) by (vm_compute; reflexivity).
  assert (Hs : consistent_spec puzzle_stuck ∅).
  { apply consistent_characterised; [done|]. vm_compute; reflexivity. }
  split_and!; [done | done | done |].
  exact (ac3_false_unsolvable puzzle_stuck store_stuck store_stuck_ac3 ∅
           Hwf Hrun Hs).
Defined.

(** X19.  For a well-formed puzzle and a node-consistent store, when
    [backtrack(assignment)] returns [None], no assignment that meets the
    three conditions extends the given one and gives every variable a word
    of its domain: the search misses no solution. *)
Theorem backtrack_none_unsolvable cw doms fuel a a' log s :
  wf_crossword cw → node_consistent cw doms →
  List.length (unassigned cw a) < fuel →
  backtrack cw doms fuel a = Ret (false, a', log) →
  a ⊆ s → consistent_spec cw s →
  ¬ ∀ v, v ∈ variables cw → ∃ w, s !! v = Some w ∧ drawn_ok doms v w.
Proof.
  intros Hwf Hnc Hfuel H Hsub Hs Hdrawn.
  destruct (backtrack_complete cw doms s fuel a Hwf Hnc Hs Hdrawn Hsub Hfuel)
    as (a2 & log2 & H2). congruence.
Qed.

Lemma backtrack_none_unsolvable_witness :
  wf_crossword puzzle_stuck ∧ node_consistent puzzle_stuck store_stuck ∧
  List.length (unassigned puzzle_stuck partial_stuck) < 2 ∧
  backtrack puzzle_stuck store_stuck 2 partial_stuck
    = Ret (false, partial_stuck, log_stuck) ∧
  partial_stuck ⊆ partial_stuck ∧ consistent_spec puzzle_stuck partial_stuck ∧
  ¬ ∀ v, v ∈ variables puzzle_stuck →
      ∃ w, partial_stuck !! v = Some w ∧ drawn_ok store_stuck v w.
Proof.
  assert (Hwf : wf_crossword puzzle_stuck) by compute_done.
  assert (Hnc : node_consistent puzzle_stuck store_stuck) by compute_done.
  assert (Hfuel : List.length (unassigned puzzle_stuck partial_stuck) < 2)
    by (vm_compute; lia).
  assert (Hrun : backtrack puzzle_stuck store_stuck 2 partial_stuck
                 = Ret (false, partial_stuck, log_stuck))
    by (vm_compute; reflexivity).
  assert (Hsub : partial_stuck ⊆ partial_stuck) by done.
  assert (Hs : consistent_spec puzzle_stuck partial_stuck).
  { apply consistent_characterised; [done|]. vm_compute; reflexivity. }
  split_and!; [done | done | done | done | done | done |].
  exact (backtrack_none_unsolvable puzzle_stuck store_stuck 2 partial_stuck
           partial_stuck log_stuck partial_stuck Hwf Hnc Hfuel Hrun Hsub Hs).
Defined.

(** ** Every outcome of consistent *)

Lemma neighbors_agree_other cw a var word ns :
  (∀ nb, nb ∈ ns → is_Some (overlaps cw !! (var, nb))) →
  match neighbors_agree cw a var word ns with
  | Ret _ => True
  | Exn e => e = IndexError
  | OutOfFuel => False
  end.
Proof.
  induction ns as [|nb ns IH]; intros Hov; simpl; [done|].
  assert (Hrest : match neighbors_agree cw a var word ns with
                  | Ret _ => True
                  | Exn e => e = IndexError
                  | OutOfFuel => False
                  end).
  { apply IH. intros nb' ?. apply Hov. by right. }
  destruct (a !! nb) as [wn|]; [|done].
  destruct (Hov nb) as [[i j] ->]; [by left|].
  destruct (str_index word i) as [cx|e|] eqn:Hx; simpl.
  - destruct (str_index wn j) as [cy|e|] eqn:Hy; simpl.
    + by destruct (decide (cx ≠ cy)).
    + by apply str_index_Exn in Hy.
    + by apply str_index_not_fuel in Hy.
  - by apply str_index_Exn in Hx.
  - by apply str_index_not_fuel in Hx.
Qed.

Lemma consistent_loop_other cw a vars seen :
  wf_crossword cw →
  match consistent_loop cw a vars seen with
  | Ret _ => True
  | Exn e => e = IndexError
  | OutOfFuel => False
  end.
Proof.
  intros Hwf. revert seen.
  induction vars as [|var rest IH]; intros seen; simpl; [done|].
  destruct (a !! var) as [word|]; [|apply IH].
  destruct (decide (String.length word ≠ var_length var)); [done|].
  pose proof (neighbors_agree_other cw a var word
                (elements (neighbors cw var))) as Hn.
  destruct (neighbors_agree cw a var word (elements (neighbors cw var)))
    as [ok|e|]; simpl.
  - destruct ok; simpl; [|done].
    destruct (decide (word ∈ seen)); [done | apply IH].
  - apply Hn. intros nb Hnb%elem_of_elements.
    destruct (wf_neighbors cw var nb Hwf Hnb) as (_ & i & j & ->). eauto.
  - apply Hn. intros nb Hnb%elem_of_elements.
    destruct (wf_neighbors cw var nb Hwf Hnb) as (_ & i & j & ->). eauto.
Qed.

(** X20.  Every outcome of [consistent] for a well-formed puzzle: [True]
    when the three conditions hold, [False] or an [IndexError] when they
    do not, and an [IndexError] only when some assigned word has not the
    length of its variable. *)
Theorem consistent_outcome cw a :
  wf_crossword cw →
  match consistent cw a with
  | Ret true => consistent_spec cw a
  | Ret false => ¬ consistent_spec cw a
  | Exn e => e = IndexError ∧ ¬ lengths_ok cw a
  | OutOfFuel => False
  end.
Proof.
  intros Hwf.
  pose proof (consistent_loop_other cw a (elements (variables cw)) ∅ Hwf)
    as Hother.
  fold (consistent cw a) in Hother.
  destruct (consistent cw a) as [[]|e|] eqn:H; [| | |done].
  - by apply consistent_characterised.
  - intros Hs%consistent_characterised; [congruence | done].
  - split; [done|]. intros Hlen.
    destruct (consistent_safe cw a Hwf Hlen) as [b Hb]. congruence.
Qed.

Lemma consistent_outcome_witness :
  wf_crossword puzzle_ok ∧
  match consistent puzzle_ok solution_ok with
  | Ret true => consistent_spec puzzle_ok solution_ok
  | Ret false => ¬ consistent_spec puzzle_ok solution_ok
  | Exn e => e = IndexError ∧ ¬ lengths_ok puzzle_ok solution_ok
  | OutOfFuel => False
  end.
Proof.
  assert (Hwf : wf_crossword puzzle_ok) by compute_done.
  split; [done|]. exact (consistent_outcome puzzle_ok solution_ok Hwf).
Defined.
